(** * Nibe heat pump coordinator: selective refresh, retry and fanout

    A shallow embedding of [homeassistant/components/nibe_heatpump/__init__.py]
    ([Coordinator] and [CoilEntity]) and the properties of its refresh cycle
    ([_async_update_data]), its write path ([async_write_coil]) and its cache
    readers ([get_coil_value], [get_coil_float]). *)

From Stdlib Require Import ZArith List Ascii String Lia.
From Stdlib Require Import Floats.SpecFloat.
From stdpp Require Import gmap strings list fin_maps pretty.

Local Open Scope Z_scope.

(** ** Data *)

(** A coil value is [int | float | str]; Python's [None] is [None : option Val].
    Floats are IEEE 754 binary64 values in the Standard Library's
    specification format. *)
Inductive Val : Type :=
| VInt (z : Z)
| VFloat (f : spec_float)
| VStr (s : string).

(** The exceptions the module names, and one constructor for all the others. *)
Inductive exn : Type :=
| CoilReadException
| CoilNotFoundException
| RetryError
| UpdateFailed (cause : exn)
| OtherException (name : string).

(** A [Coil] is a Python object: [coil_id] is its identity and [address] the
    field the module reads from it and never assigns.  The mutable attribute
    [coil.value] lives in the object store ([values] below), so that two names
    for one object see one value. *)
Record Coil : Type := { coil_id : nat; address : Z }.

(** The coordinator's cache [self.data : dict[int, Coil]] together with the
    object store holding each coil's [value] attribute (absent: [None]). *)
Record Cache : Type := { data : gmap Z Coil; values : gmap nat Val }.

(** A listener as [self._listeners] holds it: [(update_callback, context)].
    The callback is named by a number; [context] lists the elements of the
    address set in its iteration order.  The [assert isinstance(context, set)]
    of the source restricts contexts to sets, and so does this type. *)
Record Listener : Type := { update_callback : nat; context : list Z }.

(** What one call of the connection answers. *)
Inductive ReadOutcome : Type := ReadOk (v : Val) | ReadErr (e : exn).
Inductive WriteOutcome : Type := WriteOk | WriteErr (e : exn).

(** Observable effects, in the order they happen.  [EvNotify] records one call
    of an update callback together with the cache the callback can read at
    that moment; [origin] is specification-only: the address whose resolution
    triggered the call, [None] for the fanout of a write. *)
Inductive event : Type :=
| EvRead (a : Z) (o : ReadOutcome)
| EvWrite (a : Z) (v : option Val) (o : WriteOutcome)
| EvSkip (a : Z)
| EvNotify (origin : option Z) (cb : nat) (seen : Cache).

(** Modelled from the spec: the data source ([nibe.connection.Connection],
    outside this repository) is an interface with [read(address) -> FetchResult]
    and [write(address, value) -> FetchResult], each answer a success or a
    failure with an error.  [K] is the state of the data source. *)
Class Connection (K : Type) : Type := {
  read_response : K -> Coil -> ReadOutcome * K;
  write_response : K -> Coil -> option Val -> WriteOutcome * K
}.

(** The heat pump's coil database: [heatpump.get_coils()]. *)
Definition HeatPump : Type := list Coil.

(** The setter of the [value] property of the library's [Coil] class
    ([nibe.coil], outside this repository), taken as a parameter: for a coil
    and an assigned value, the value the coil stores (a number within the
    coil's bounds as it is, a mapped string upper-cased), or the error the
    setter raises (an [AssertionError] for a value of the wrong type, outside
    the bounds or not among the mappings). *)
Class CoilSetter : Type := coil_setter : Coil -> Val -> exn + Val.

Record World (K : Type) : Type := { cache : Cache; connection : K }.
Arguments cache {K} _.
Arguments connection {K} _.
Arguments Build_World {K} _ _.

(** ** Effects: state, exceptions and the event log *)

Inductive result (A : Type) : Type :=
| Ok (a : A)
| Raise (e : exn).
Arguments Ok {A} _.
Arguments Raise {A} _.

Definition M (K A : Type) : Type := World K -> result A * World K * list event.

Definition ret {K A} (a : A) : M K A := fun w => (Ok a, w, []).

Definition raise {K A} (e : exn) : M K A := fun w => (Raise e, w, []).

Definition bind {K A B} (m : M K A) (f : A -> M K B) : M K B :=
  fun w =>
    match m w with
    | (Ok a, w1, evs1) => let '(r, w2, evs2) := f a w1 in (r, w2, evs1 ++ evs2)
    | (Raise e, w1, evs1) => (Raise e, w1, evs1)
    end.

(** [try: m  except e: h e]; the state changes of [m] stay. *)
Definition try_except {K A} (m : M K A) (h : exn -> M K A) : M K A :=
  fun w =>
    match m w with
    | (Ok a, w1, evs1) => (Ok a, w1, evs1)
    | (Raise e, w1, evs1) => let '(r, w2, evs2) := h e w1 in (r, w2, evs1 ++ evs2)
    end.

Definition emit {K} (ev : event) : M K unit := fun w => (Ok tt, w, [ev]).

Definition get_cache {K} : M K Cache := fun w => (Ok (cache w), w, []).

Definition modify_cache {K} (f : Cache -> Cache) : M K unit :=
  fun w => (Ok tt, Build_World (f (cache w)) (connection w), []).

Declare Scope coord_scope.
Delimit Scope coord_scope with coord.
Notation "x <- m ;; k" := (bind m (fun x => k))
  (at level 100, m at next level, right associativity) : coord_scope.
Notation "m ;;; k" := (bind m (fun _ => k))
  (at level 100, right associativity) : coord_scope.

Fixpoint for_each {K A} (l : list A) (body : A -> M K unit) : M K unit :=
  match l with
  | [] => ret tt
  | x :: rest => (body x ;;; for_each rest body)%coord
  end.

(** The three parts of a run. *)
Definition outcome {K A} (run : result A * World K * list event) : result A :=
  fst (fst run).
Definition final {K A} (run : result A * World K * list event) : World K :=
  snd (fst run).
Definition log {K A} (run : result A * World K * list event) : list event :=
  snd run.

(** ** Object and cache operations *)

(** [coil.value = v] *)
Definition set_value (c : Coil) (v : Val) (s : Cache) : Cache :=
  {| data := data s; values := <[coil_id c := v]> (values s) |}.

(** [self.data[a] = c] *)
Definition set_data (a : Z) (c : Coil) (s : Cache) : Cache :=
  {| data := <[a := c]> (data s); values := values s |}.

(** [coil.value] *)
Definition coil_value (s : Cache) (c : Coil) : option Val := values s !! coil_id c.

(** [Coordinator.get_coil_value]: a [Coil] object is truthy (the class has no
    [__bool__] or [__len__]), so the walrus test fails on a missing entry only. *)
Definition get_coil_value (s : Cache) (coil : Coil) : option Val :=
  match data s !! address coil with
  | Some coil' => coil_value s coil'
  | None => None
  end.

(** Python truthiness of a coil value. *)
Definition truthy (v : Val) : bool :=
  match v with
  | VInt z => negb (z =? 0)
  | VFloat (S754_zero _) => false
  | VFloat _ => true
  | VStr s => negb (String.eqb s EmptyString)
  end.

(** [float(n)] for an [int]: the nearest binary64 value, ties to even, and
    [OverflowError] where that is out of range. *)
Definition float_of_int (z : Z) : exn + spec_float :=
  match binary_normalize 53 1024 z 0 false with
  | S754_infinity _ => inl (OtherException "OverflowError")
  | f => inr f
  end.

(** [float(value)]; [parse] is the builtin's reading of a string, [None] where
    it raises [ValueError]. *)
Definition py_float (parse : string -> option spec_float) (v : Val) : exn + spec_float :=
  match v with
  | VInt z => float_of_int z
  | VFloat f => inr f
  | VStr s =>
      match parse s with
      | Some f => inr f
      | None => inl (OtherException "ValueError")
      end
  end.

(** [Coordinator.get_coil_float] *)
Definition get_coil_float (parse : string -> option spec_float) (s : Cache) (coil : Coil)
  : exn + option spec_float :=
  match get_coil_value s coil with
  | Some value =>
      if truthy value then
        match py_float parse value with
        | inr f => inr (Some f)
        | inl e => inl e
        end
      else inr None
  | None => inr None
  end.

(** ** The heat pump and the connection *)

(** [heatpump.get_coil_by_address(address)]: the coil of the database with
    that address, [CoilNotFoundException] when there is none. *)
Definition get_coil_by_address {K} (hp : HeatPump) (a : Z) : M K Coil :=
  match find (fun c => bool_decide (address c = a)) hp with
  | Some c => ret c
  | None => raise CoilNotFoundException
  end.

(** [await self.connection.read_coil(coil)]: one read.  On success the
    connection stores the value in the coil it was given and returns that coil. *)
Definition connection_read_coil {K} `{Connection K} (coil : Coil) : M K Coil :=
  fun w =>
    let '(o, k) := read_response (connection w) coil in
    match o with
    | ReadOk v =>
        (Ok coil, Build_World (set_value coil v (cache w)) k, [EvRead (address coil) o])
    | ReadErr e =>
        (Raise e, Build_World (cache w) k, [EvRead (address coil) o])
    end.

(** [await self.connection.write_coil(coil)]: one write of the coil's current
    value.  On success the connection returns the coil it was given. *)
Definition connection_write_coil {K} `{Connection K} (coil : Coil) : M K Coil :=
  fun w =>
    let v := coil_value (cache w) coil in
    let '(o, k) := write_response (connection w) coil v in
    match o with
    | WriteOk => (Ok coil, Build_World (cache w) k, [EvWrite (address coil) v o])
    | WriteErr e => (Raise e, Build_World (cache w) k, [EvWrite (address coil) v o])
    end.

(** [@retry(retry=retry_if_exception_type(CoilReadException),
            stop=stop_after_attempt(n))]: run [m]; after a [CoilReadException]
    run it again unless [n] attempts were made, then raise [RetryError]; any
    other exception goes through.  [more] counts the attempts left after the
    one being made. *)
Fixpoint retry_loop {K A} (more : nat) (m : M K A) : M K A :=
  try_except m (fun e =>
    match e with
    | CoilReadException =>
        match more with
        | O => raise RetryError
        | S more' => retry_loop more' m
        end
    | _ => raise e
    end).

Definition retry {K A} (stop_after_attempt : nat) (m : M K A) : M K A :=
  retry_loop (Nat.pred stop_after_attempt) m.

Definition COIL_READ_RETRIES : nat := 5.

(** The local [read_coil] of [_async_update_data]. *)
Definition read_coil {K} `{Connection K} (coil : Coil) : M K Coil :=
  retry COIL_READ_RETRIES (connection_read_coil coil).

(** ** Listeners *)

(** One update callback is called; it reads the cache and leaves the
    coordinator alone (as [CoilEntity._handle_coordinator_update] does). *)
Definition call_callback {K} (origin : option Z) (cb : nat) : M K unit :=
  (s <- get_cache ;; emit (EvNotify origin cb s))%coord.

(** Modelled from the spec: [DataUpdateCoordinator.async_update_listeners]
    (the base class, not among the sources) is called without an address and
    triggers the fanout-to-listeners notification: each registered listener's
    callback, in registration order. *)
Definition async_update_listeners {K} (listeners : list Listener) : M K unit :=
  for_each listeners (fun l => call_callback None (update_callback l)).

(** [callbacks: dict[int, list[CALLBACK_TYPE]] = defaultdict(list)], a dict in
    insertion order; [callbacks[address].append(update_callback)]. *)
Fixpoint append_callback (callbacks : list (Z * list nat)) (a : Z) (cb : nat)
  : list (Z * list nat) :=
  match callbacks with
  | [] => [(a, [cb])]
  | (a', l) :: rest =>
      if decide (a' = a) then (a', l ++ [cb]) :: rest
      else (a', l) :: append_callback rest a cb
  end.

Definition add_listener (callbacks : list (Z * list nat)) (l : Listener)
  : list (Z * list nat) :=
  fold_left (fun cbs a => append_callback cbs a (update_callback l)) (context l) callbacks.

Definition collect_callbacks (listeners : list Listener) : list (Z * list nat) :=
  fold_left add_listener listeners [].

(** ** The refresh cycle *)

(** The [try] block and its [except] clauses for one address; [result] is the
    local dict of the cycle. *)
Definition fetch_address {K} `{Connection K} (hp : HeatPump) (a : Z)
    (result : gmap Z Coil) : M K (gmap Z Coil) :=
  try_except
    (coil <- get_coil_by_address hp a ;;
     r <- read_coil coil ;;
     modify_cache (set_data (address coil) r) ;;;
     ret (<[address coil := r]> result))%coord
    (fun e =>
       match e with
       | CoilReadException | RetryError => raise (UpdateFailed e)
       | CoilNotFoundException => (emit (EvSkip a) ;;; ret result)%coord
       | _ => raise e
       end).

(** One turn of [for address, callback_list in callbacks.items()]. *)
Definition update_address {K} `{Connection K} (hp : HeatPump)
    (item : Z * list nat) (result : gmap Z Coil) : M K (gmap Z Coil) :=
  (result' <- fetch_address hp (fst item) result ;;
   for_each (snd item) (call_callback (Some (fst item))) ;;;
   ret result')%coord.

Fixpoint update_loop {K} `{Connection K} (hp : HeatPump)
    (items : list (Z * list nat)) (result : gmap Z Coil) : M K (gmap Z Coil) :=
  match items with
  | [] => ret result
  | item :: rest =>
      (result' <- update_address hp item result ;; update_loop hp rest result')%coord
  end.

(** [Coordinator._async_update_data] *)
Definition _async_update_data {K} `{Connection K} (hp : HeatPump)
    (listeners : list Listener) : M K (gmap Z Coil) :=
  update_loop hp (collect_callbacks listeners) ∅.

(** ** The write path *)

(** [coil.value = value] through the property setter: the coil stores what
    the setter makes of the value, or the setter's error is raised and the
    coil is left as it was. *)
Definition assign_value {K} `{CoilSetter} (coil : Coil) (value : Val) : M K unit :=
  match coil_setter coil value with
  | inr stored => modify_cache (set_value coil stored)
  | inl e => raise e
  end.

(** [Coordinator.async_write_coil] *)
Definition async_write_coil {K} `{Connection K} `{CoilSetter}
    (listeners : list Listener) (coil : Coil) (value : Val) : M K unit :=
  (assign_value coil value ;;;
   coil' <- connection_write_coil coil ;;
   s <- get_cache ;;
   if bool_decide (data s = ∅) then ret tt
   else (modify_cache (set_data (address coil') coil') ;;;
         async_update_listeners listeners))%coord.

(** ** Coil entities *)

(** [CoilEntity]: the entity keeps a reference to a coil object. *)
Record CoilEntity : Type := { _coil : Coil }.

(** [super().__init__(coordinator, {coil.address})]: the entity listens with
    its coil's address as context. *)
Definition entity_listener (cb : nat) (e : CoilEntity) : Listener :=
  {| update_callback := cb; context := [address (_coil e)] |}.

(** [CoilEntity._handle_coordinator_update]: the entity adopts the cached coil
    object, when there is one. *)
Definition _handle_coordinator_update (e : CoilEntity) (seen : Cache) : CoilEntity :=
  match data seen !! address (_coil e) with
  | None => e
  | Some coil => {| _coil := coil |}
  end.

(** [CoilEntity._async_write_coil] *)
Definition _async_write_coil {K} `{Connection K} `{CoilSetter}
    (listeners : list Listener) (e : CoilEntity) (value : Val) : M K unit :=
  async_write_coil listeners (_coil e) value.

(** The entity whose update callback is [cb] handles the calls logged in [evs]. *)
Definition deliver (cb : nat) (evs : list event) (e : CoilEntity) : CoilEntity :=
  fold_left
    (fun e ev =>
       match ev with
       | EvNotify _ cb' seen =>
           if decide (cb' = cb) then _handle_coordinator_update e seen else e
       | _ => e
       end)
    evs e.

(** ** Reading the event log *)

(** The addresses the cycle tried to resolve: a read through the connection,
    or a coil the data source does not have. *)
Definition attempted (evs : list event) : list Z :=
  omap (fun ev =>
          match ev with
          | EvRead a _ | EvSkip a => Some a
          | _ => None
          end) evs.

(** The addresses read through the connection. *)
Definition reads (evs : list event) : list Z :=
  omap (fun ev => match ev with EvRead a _ => Some a | _ => None end) evs.

(** [a] was successfully updated: some read of it answered a value. *)
Definition updatedb (evs : list event) (a : Z) : bool :=
  existsb (fun ev =>
             match ev with
             | EvRead a' (ReadOk _) => bool_decide (a' = a)
             | _ => false
             end) evs.

(** [ev] resolves [a] without abort: a value was read, or the coil was skipped
    as not found. *)
Definition resolves (a : Z) (ev : event) : bool :=
  match ev with
  | EvRead a' (ReadOk _) | EvSkip a' => bool_decide (a' = a)
  | _ => false
  end.

(** [a] was resolved without abort in this log. *)
Definition resolvedb (evs : list event) (a : Z) : bool :=
  existsb (resolves a) evs.

(** How many times [cb] stands in a callback list. *)
Definition occurrences (cb : nat) (cbs : list nat) : nat :=
  length (List.filter (fun cb' => bool_decide (cb' = cb)) cbs).

Definition is_notify (cb : nat) (ev : event) : bool :=
  match ev with
  | EvNotify _ cb' _ => bool_decide (cb' = cb)
  | _ => false
  end.

Definition is_notify_for (a : Z) (cb : nat) (ev : event) : bool :=
  match ev with
  | EvNotify (Some a') cb' _ => bool_decide (a' = a) && bool_decide (cb' = cb)
  | _ => false
  end.

(** How many times the callback [cb] was called. *)
Definition notifications (cb : nat) (evs : list event) : nat :=
  length (List.filter (is_notify cb) evs).

(** How many times [cb] was called on account of address [a]. *)
Definition notifications_for (a : Z) (cb : nat) (evs : list event) : nat :=
  length (List.filter (is_notify_for a cb) evs).

(** The callbacks called, in order. *)
Definition notified (evs : list event) : list nat :=
  omap (fun ev => match ev with EvNotify _ cb _ => Some cb | _ => None end) evs.

(** The writes sent to the connection. *)
Definition writes (evs : list event) : list Z :=
  omap (fun ev => match ev with EvWrite a _ _ => Some a | _ => None end) evs.

(** [a] is in the interest set of some registered listener. *)
Definition requested (listeners : list Listener) (a : Z) : Prop :=
  ∃ l, l ∈ listeners ∧ a ∈ context l.

(** The callbacks [collect_callbacks] records for [a]: one per listener and
    per occurrence of [a] in its context, in registration order. *)
Definition callbacks_for (a : Z) (listeners : list Listener) : list nat :=
  flat_map (fun l => map (fun _ => update_callback l)
                       (List.filter (fun a' => bool_decide (a' = a)) (context l)))
           listeners.

(** The entry of [a] in the [callbacks] dict ([[]] if there is none). *)
Fixpoint callbacks_at (callbacks : list (Z * list nat)) (a : Z) : list nat :=
  match callbacks with
  | [] => []
  | (a', l) :: rest => if decide (a' = a) then l else callbacks_at rest a
  end.

(** The next [n] reads of [coil] all time out; the connection afterwards. *)
Fixpoint transient_run {K} `{Connection K} (n : nat) (k : K) (coil : Coil) : option K :=
  match n with
  | O => Some k
  | S n' =>
      match read_response k coil with
      | (ReadErr CoilReadException, k') => transient_run n' k' coil
      | _ => None
      end
  end.

(** ** A scripted connection

    A connection that answers from two queues, one per direction; an empty
    queue answers with a timeout (reads) or a failure (writes). *)
Record Script : Type := { read_queue : list ReadOutcome; write_queue : list WriteOutcome }.

Definition script_read (k : Script) (_ : Coil) : ReadOutcome * Script :=
  match read_queue k with
  | o :: rest => (o, {| read_queue := rest; write_queue := write_queue k |})
  | [] => (ReadErr CoilReadException, k)
  end.

Definition script_write (k : Script) (_ : Coil) (_ : option Val) : WriteOutcome * Script :=
  match write_queue k with
  | o :: rest => (o, {| read_queue := read_queue k; write_queue := rest |})
  | [] => (WriteErr (OtherException "CoilWriteException"), k)
  end.

#[export] Instance script_connection : Connection Script :=
  {| read_response := script_read; write_response := script_write |}.

(** The setter of coils without mappings and without bounds: a number is
    stored as it is, a string is refused. *)
Definition numeric_setter (_ : Coil) (value : Val) : exn + Val :=
  match value with
  | VStr _ => inl (OtherException "AssertionError")
  | _ => inr value
  end.

#[export] Instance numeric_coils : CoilSetter | 100 := numeric_setter.

(** [str.upper()] on the letters a to z. *)
Definition upper_char (a : ascii) : ascii :=
  let n := nat_of_ascii a in
  if Nat.leb 97 n && Nat.leb n 122 then ascii_of_nat (n - 32) else a.

Fixpoint upper (s : string) : string :=
  match s with
  | EmptyString => EmptyString
  | String a rest => String (upper_char a) (upper rest)
  end.

(** The setter of coils with the mappings OFF and ON: a string is stored
    upper-cased when that is one of the two, anything else is refused. *)
Definition switch_setter (_ : Coil) (value : Val) : exn + Val :=
  match value with
  | VStr s =>
      if existsb (String.eqb (upper s)) ["OFF"; "ON"]%string then inr (VStr (upper s))
      else inl (OtherException "AssertionError")
  | _ => inl (OtherException "AssertionError")
  end.

Definition empty_cache : Cache := {| data := ∅; values := ∅ |}.

(** Two coils of a heat pump, at addresses 10 and 20, and a database that
    has the first only. *)
Definition coil10 : Coil := {| coil_id := 1; address := 10 |}.
Definition coil20 : Coil := {| coil_id := 2; address := 20 |}.
Definition pump_both : HeatPump := [coil10; coil20].
Definition pump_10 : HeatPump := [coil10].

(** Listeners L1 -> {10} and L2 -> {10, 20}. *)
Definition L1 : Listener := {| update_callback := 1; context := [10] |}.
Definition L2 : Listener := {| update_callback := 2; context := [10; 20] |}.
(** A listener on address 20 alone. *)
Definition L3 : Listener := {| update_callback := 3; context := [20] |}.

(** A third coil and a listener on it. *)
Definition coil30 : Coil := {| coil_id := 3; address := 30 |}.
Definition pump_three : HeatPump := [coil10; coil20; coil30].
Definition L4 : Listener := {| update_callback := 4; context := [30] |}.

Definition world0 (reads : list ReadOutcome) (writes : list WriteOutcome) : World Script :=
  Build_World empty_cache {| read_queue := reads; write_queue := writes |}.

(** A cache that holds coil 10 with value 5. *)
Definition cache_10_5 : Cache :=
  {| data := {[ 10 := coil10 ]}; values := {[ 1%nat := VInt 5 ]} |}.

(** ** The shape of a cycle's event log *)

(** [n] reads of [a] in a row that timed out. *)
Definition timeouts (a : Z) (n : nat) : list event :=
  repeat (EvRead a (ReadErr CoilReadException)) n.

(** A read of [a] that raised. *)
Definition failed_read (a : Z) (ev : event) : Prop :=
  ∃ e, ev = EvRead a (ReadErr e).

Definition find_coil (hp : HeatPump) (a : Z) : option Coil :=
  find (fun c => bool_decide (address c = a)) hp.

Definition calls (a : Z) (cbs : list nat) (seen : Cache) : list event :=
  map (fun cb => EvNotify (Some a) cb seen) cbs.

(** The address an event is about. *)
Definition event_address (ev : event) : option Z :=
  match ev with
  | EvRead a _ | EvSkip a | EvWrite a _ _ => Some a
  | EvNotify origin _ _ => origin
  end.

(** The runs of [update_loop], with the connection abstracted away: what a
    cycle over [items] can do to the [result] dict and the cache, and the
    events it leaves.  Each address is updated (a value after fewer than
    [COIL_READ_RETRIES] timeouts), skipped (not found, after failed reads
    only) or aborts the cycle. *)
Inductive cycle (hp : HeatPump)
  : list (Z * list nat) -> gmap Z Coil -> Cache ->
    result (gmap Z Coil) -> Cache -> list event -> Prop :=
| cycle_done res s :
    cycle hp [] res s (Ok res) s []
| cycle_updated a cbs rest res s c n v r s' evs :
    find_coil hp a = Some c ->
    (n < COIL_READ_RETRIES)%nat ->
    cycle hp rest (<[a := c]> res) (set_data a c (set_value c v s)) r s' evs ->
    cycle hp ((a, cbs) :: rest) res s r s'
      (timeouts a n ++ EvRead a (ReadOk v)
         :: calls a cbs (set_data a c (set_value c v s)) ++ evs)
| cycle_skipped a cbs rest res s rs r s' evs :
    Forall (failed_read a) rs ->
    cycle hp rest res s r s' evs ->
    cycle hp ((a, cbs) :: rest) res s r s'
      (rs ++ EvSkip a :: calls a cbs s ++ evs)
| cycle_aborted a cbs rest res s e rs :
    Forall (failed_read a) rs ->
    rs ≠ [] ->
    cycle hp ((a, cbs) :: rest) res s (Raise e) s rs.

(** The specification's reading of the per-cycle notification count: one call
    if some address of the listener's interest set was updated, none if none
    was. *)
Definition notified_once_if_updated (evs : list event) (l : Listener) : Prop :=
  (existsb (updatedb evs) (context l) = true ->
   notifications (update_callback l) evs = 1%nat)
  ∧ (existsb (updatedb evs) (context l) = false ->
     notifications (update_callback l) evs = 0%nat).


(** The entity of coil 10, created from the heat pump's coil list. *)
Definition entity10 : CoilEntity := {| _coil := coil10 |}.

(** A connection with nothing queued but one answer to a write. *)
Definition write_only (o : WriteOutcome) : Script :=
  {| read_queue := []; write_queue := [o] |}.

Definition idle : Script := {| read_queue := []; write_queue := [] |}.

(** ** Identity, availability and the entity's handler *)

(** The fields of [ConfigEntry] the module reads. *)
Record ConfigEntry : Type := { entry_unique_id : option string; entry_id : string }.

(** [Coordinator.unique_id]: [self.config_entry.unique_id or
    self.config_entry.entry_id]; Python's [or] takes the right operand when
    the left is [None] or the empty string. *)
Definition unique_id (entry : ConfigEntry) : string :=
  match entry_unique_id entry with
  | Some s => if String.eqb s EmptyString then entry_id entry else s
  | None => entry_id entry
  end.

(** [CoilEntity.__init__]: [f"{coordinator.unique_id}-{coil.address}"], the
    address in decimal as [str(int)] writes it. *)
Definition entity_unique_id (entry : ConfigEntry) (coil : Coil) : string :=
  unique_id entry +:+ "-" +:+ pretty (address coil).

(** [CoilEntity.available]; [last_update_success] is the base class's flag. *)
Definition available (last_update_success : bool) (s : Cache) (e : CoilEntity) : bool :=
  last_update_success && bool_decide (is_Some (data s !! address (_coil e))).

(** What [CoilEntity._handle_coordinator_update] does after adopting the
    coil: the hook [_async_read_coil(coil)] and [async_write_ha_state()];
    nothing when the cache has no coil for the entity's address. *)
Inductive entity_effect : Type :=
| ReadCoilHook (coil : Coil)
| WriteHaState.

Definition handler_effects (e : CoilEntity) (seen : Cache) : list entity_effect :=
  match data seen !! address (_coil e) with
  | None => []
  | Some coil => [ReadCoilHook coil; WriteHaState]
  end.

(** Every cache entry stands under its coil's own address. *)
Definition keyed_by_address (s : Cache) : Prop :=
  ∀ a c, data s !! a = Some c -> address c = a.

(** How many reads of [a] went through the connection. *)
Definition read_count (a : Z) (evs : list event) : nat :=
  length (List.filter (fun b => bool_decide (b = a)) (reads evs)).

(** Errors the [except] clauses of the cycle do not name. *)
Definition is_fatal (e : exn) : bool :=
  match e with
  | UpdateFailed _ | OtherException _ => true
  | _ => false
  end.

(** The addresses of a list, each once, in the order of their first
    occurrence. *)
Fixpoint first_seen (l : list Z) : list Z :=
  match l with
  | [] => []
  | a :: rest => a :: List.filter (fun b => negb (bool_decide (b = a))) (first_seen rest)
  end.

(** The attempts of a cycle by blocks: for each [(a, k)], [k + 1] attempts at
    address [a] in a row. *)
Definition block_attempts (blocks : list (Z * nat)) : list Z :=
  flat_map (fun b => repeat (fst b) (S (snd b))) blocks.

(** * Properties *)

(** ** The effect combinators *)

Lemma for_each_calls {K} (origin : option Z) (cbs : list nat) (w : World K) :
  for_each cbs (call_callback origin) w
  = (Ok tt, w, map (fun cb => EvNotify origin cb (cache w)) cbs).
Proof.
  induction cbs as [|cb cbs IH]; [reflexivity|].
  simpl. unfold bind at 1. unfold call_callback at 1, bind, get_cache, emit.
  rewrite IH. reflexivity.
Qed.

Lemma async_update_listeners_run {K} (ls : list Listener) (w : World K) :
  async_update_listeners ls w
  = (Ok tt, w, map (fun l => EvNotify None (update_callback l) (cache w)) ls).
Proof.
  unfold async_update_listeners.
  induction ls as [|l ls IH]; [reflexivity|].
  simpl. unfold bind at 1. unfold call_callback at 1, bind, get_cache, emit.
  rewrite IH. reflexivity.
Qed.

(** ** One read with retries *)

(** The read ended on an error that is not a timeout, after [n] timeouts. *)
Ltac other_error n :=
  right; left; exists n; eexists;
  split; [lia|]; split; [|split; [reflexivity|split; reflexivity]]; discriminate.

Section Retry.
Context {K : Type} `{Connection K}.

(** The three ways the retried read of one coil ends: a value after at most
    [more] timeouts; an error that is not a timeout, after at most [more]
    timeouts; or [more + 1] timeouts and [RetryError]. *)
Lemma retry_loop_read_spec (more : nat) (c : Coil) (w : World K) r w' evs :
  retry_loop more (connection_read_coil c) w = (r, w', evs) ->
  (∃ n v, (n <= more)%nat ∧ r = Ok c ∧ cache w' = set_value c v (cache w)
          ∧ evs = timeouts (address c) n ++ [EvRead (address c) (ReadOk v)])
  ∨ (∃ n e, (n <= more)%nat ∧ e ≠ CoilReadException ∧ r = Raise e
            ∧ cache w' = cache w
            ∧ evs = timeouts (address c) n ++ [EvRead (address c) (ReadErr e)])
  ∨ (r = Raise RetryError ∧ cache w' = cache w
     ∧ evs = timeouts (address c) (S more)).
Proof.
  revert w r w' evs.
  induction more as [|more IH]; intros w r w' evs Hrun;
    simpl in Hrun; unfold try_except in Hrun;
    unfold connection_read_coil at 1 in Hrun;
    destruct (read_response (connection w) c) as [[v|e] k] eqn:Hresp.
  - inversion Hrun; subst. left. exists 0%nat, v. simpl. auto.
  - destruct e; unfold raise in Hrun; inversion Hrun; subst; simpl;
      [right; right; auto | other_error 0%nat ..].
  - inversion Hrun; subst. left. exists 0%nat, v. simpl. split; [lia|auto].
  - destruct e; unfold raise in Hrun;
      [| inversion Hrun; subst; simpl; other_error 0%nat ..].
    destruct (retry_loop more (connection_read_coil c) (Build_World (cache w) k))
      as [[r2 w2] evs2] eqn:Hrec.
    inversion Hrun; subst. apply IH in Hrec. simpl in Hrec.
    destruct Hrec as [(n & v & Hn & -> & Hc & ->)|[(n & e & Hn & Hne & -> & Hc & ->)|(-> & Hc & ->)]].
    + left. exists (S n), v. repeat split; [lia|assumption].
    + right; left. exists (S n), e. repeat split; [lia|assumption..].
    + right; right. repeat split; assumption.
Qed.

(** Enough timeouts in a row exhaust the attempts. *)
Lemma retry_loop_exhausted (more : nat) (c : Coil) (w : World K) k' :
  transient_run (S more) (connection w) c = Some k' ->
  retry_loop more (connection_read_coil c) w
  = (Raise RetryError, Build_World (cache w) k', timeouts (address c) (S more)).
Proof.
  revert w. induction more as [|more IH]; intros w Hrun;
    simpl in Hrun |- *; unfold try_except; unfold connection_read_coil at 1;
    destruct (read_response (connection w) c) as [[v|e] k] eqn:Hresp;
    try discriminate; destruct e; try discriminate.
  - inversion Hrun; subst. reflexivity.
  - specialize (IH (Build_World (cache w) k) Hrun). simpl in IH.
    rewrite IH. reflexivity.
Qed.
End Retry.

(** ** One address, and the loop *)

Lemma find_coil_address (hp : HeatPump) (a : Z) (c : Coil) :
  find_coil hp a = Some c -> address c = a.
Proof.
  unfold find_coil. intros Hf. apply find_some in Hf as [_ Hb].
  by apply bool_decide_eq_true in Hb.
Qed.

Lemma timeouts_failed (a : Z) (n : nat) : Forall (failed_read a) (timeouts a n).
Proof.
  unfold timeouts. induction n; simpl; constructor; [by eexists|assumption].
Qed.

Section Refresh.
Context {K : Type} `{Connection K} (hp : HeatPump).

(** The three ways the [try] block of one address ends. *)
Lemma fetch_address_spec (a : Z) (res : gmap Z Coil) (w : World K) r w' evs :
  fetch_address hp a res w = (r, w', evs) ->
  (∃ c n v, find_coil hp a = Some c ∧ (n < COIL_READ_RETRIES)%nat
            ∧ r = Ok (<[a := c]> res)
            ∧ cache w' = set_data a c (set_value c v (cache w))
            ∧ evs = timeouts a n ++ [EvRead a (ReadOk v)])
  ∨ (∃ rs, r = Ok res ∧ cache w' = cache w ∧ Forall (failed_read a) rs
           ∧ evs = rs ++ [EvSkip a])
  ∨ (∃ e, r = Raise e ∧ cache w' = cache w ∧ Forall (failed_read a) evs
          ∧ evs ≠ []).
Proof.
  unfold fetch_address, try_except, get_coil_by_address. fold (find_coil hp a).
  destruct (find_coil hp a) as [c|] eqn:Hfind.
  - pose proof (find_coil_address _ _ _ Hfind) as Haddr.
    unfold bind at 1. unfold ret at 1.
    unfold bind at 1. unfold read_coil, retry, COIL_READ_RETRIES. simpl Nat.pred.
    destruct (retry_loop 4 (connection_read_coil c) w) as [[r1 w1] evs1] eqn:Hread.
    apply retry_loop_read_spec in Hread. rewrite Haddr in Hread.
    destruct Hread as [(n & v & Hn & -> & Hc & ->)
                      |[(n & e & Hn & Hne & -> & Hc & ->)|(-> & Hc & ->)]].
    + unfold bind, modify_cache, ret. simpl. intros Heq. inversion Heq; subst.
      left. exists c, n, v. simpl. rewrite Hc, app_nil_r.
      repeat split; lia.
    + simpl.
      assert (Hrs : Forall (failed_read a)
                      (timeouts a n ++ [EvRead a (ReadErr e)])).
      { apply Forall_app; split; [apply timeouts_failed|].
        constructor; [by eexists|constructor]. }
      destruct e; try congruence; unfold raise, bind, emit, ret; simpl;
        intros Heq; inversion Heq; subst; rewrite ?app_nil_r;
        try (right; right; eexists; repeat split; eauto;
             intros Hnil; by apply app_eq_nil in Hnil as [_ ?]).
      right; left. eexists. repeat split; eauto.
    + unfold raise. simpl. intros Heq. inversion Heq; subst.
      right; right. eexists.
      repeat split; [exact Hc|apply (timeouts_failed _ 5)|discriminate].
  - unfold raise, bind, emit, ret. simpl. intros Heq. inversion Heq; subst.
    right; left. exists []. repeat split; auto.
Qed.

(** Every run of the loop is a [cycle]. *)
Lemma update_loop_cycle (items : list (Z * list nat)) (res : gmap Z Coil)
    (w : World K) r w' evs :
  update_loop hp items res w = (r, w', evs) ->
  cycle hp items res (cache w) r (cache w') evs.
Proof.
  revert res w r w' evs.
  induction items as [|[a cbs] rest IH]; intros res w r w' evs Hrun.
  - inversion Hrun; subst. constructor.
  - simpl in Hrun. unfold bind at 1 in Hrun. unfold update_address in Hrun.
    unfold bind at 1 in Hrun. simpl fst in Hrun. simpl snd in Hrun.
    destruct (fetch_address hp a res w) as [[r1 w1] evs1] eqn:Hfetch.
    apply fetch_address_spec in Hfetch.
    destruct Hfetch as [(c & n & v & Hfind & Hn & -> & Hc & ->)
                       |[(rs & -> & Hc & Hrs & ->)|(e & -> & Hc & Hrs & Hne)]].
    + unfold bind at 1 in Hrun. rewrite for_each_calls in Hrun.
      unfold ret at 1 in Hrun.
      destruct (update_loop hp rest (<[a:=c]> res) w1) as [[r2 w2] evs2] eqn:Hrest.
      inversion Hrun; subst. apply IH in Hrest. rewrite Hc in Hrest |- *.
      rewrite app_nil_r, <- !app_assoc. simpl.
      by apply cycle_updated.
    + unfold bind at 1 in Hrun. rewrite for_each_calls in Hrun.
      unfold ret at 1 in Hrun.
      destruct (update_loop hp rest res w1) as [[r2 w2] evs2] eqn:Hrest.
      inversion Hrun; subst. apply IH in Hrest. rewrite Hc in Hrest |- *.
      rewrite app_nil_r, <- !app_assoc. simpl.
      by apply cycle_skipped.
    + inversion Hrun; subst. rewrite Hc. by apply cycle_aborted.
Qed.
End Refresh.

(** ** The [callbacks] dict *)

Lemma append_callback_keys (cbs : list (Z * list nat)) (a : Z) (cb : nat) (a' : Z) :
  a' ∈ map fst (append_callback cbs a cb) ↔ a' = a ∨ a' ∈ map fst cbs.
Proof.
  induction cbs as [|[b l] rest IH]; simpl.
  - rewrite list_elem_of_singleton. split; [auto|]. intros [?|Hin]; [done|inversion Hin].
  - destruct (decide (b = a)) as [->|Hne]; simpl; rewrite !elem_of_cons.
    + tauto.
    + rewrite IH. tauto.
Qed.

Lemma append_callback_NoDup (cbs : list (Z * list nat)) (a : Z) (cb : nat) :
  NoDup (map fst cbs) -> NoDup (map fst (append_callback cbs a cb)).
Proof.
  induction cbs as [|[b l] rest IH]; simpl; intros Hnd.
  - apply NoDup_singleton.
  - destruct (decide (b = a)) as [->|Hne]; simpl; [assumption|].
    apply NoDup_cons in Hnd as [Hnotin Hnd]. apply NoDup_cons. split; [|auto].
    rewrite append_callback_keys. intros [?|?]; [done|contradiction].
Qed.

Lemma append_callback_at (cbs : list (Z * list nat)) (a : Z) (cb : nat) (a' : Z) :
  callbacks_at (append_callback cbs a cb) a'
  = callbacks_at cbs a' ++ (if decide (a = a') then [cb] else []).
Proof.
  induction cbs as [|[b l] rest IH]; simpl.
  - destruct (decide (a = a')); reflexivity.
  - destruct (decide (b = a)) as [->|Hne]; simpl.
    + destruct (decide (a = a')); [reflexivity|by rewrite app_nil_r].
    + destruct (decide (b = a')) as [->|Hne']; [|exact IH].
      destruct (decide (a = a')); [congruence|by rewrite app_nil_r].
Qed.

Lemma add_listener_keys (l : Listener) (cbs : list (Z * list nat)) (a : Z) :
  a ∈ map fst (add_listener cbs l) ↔ a ∈ map fst cbs ∨ a ∈ context l.
Proof.
  unfold add_listener. revert cbs.
  induction (context l) as [|b ctx IH]; intros cbs; simpl.
  - split; [auto|]. intros [?|Hin]; [done|inversion Hin].
  - rewrite IH, append_callback_keys, elem_of_cons. tauto.
Qed.

Lemma add_listener_NoDup (l : Listener) (cbs : list (Z * list nat)) :
  NoDup (map fst cbs) -> NoDup (map fst (add_listener cbs l)).
Proof.
  unfold add_listener. revert cbs.
  induction (context l) as [|b ctx IH]; intros cbs Hnd; simpl; [assumption|].
  apply IH. by apply append_callback_NoDup.
Qed.

Lemma add_listener_at (l : Listener) (cbs : list (Z * list nat)) (a : Z) :
  callbacks_at (add_listener cbs l) a
  = callbacks_at cbs a
    ++ map (fun _ => update_callback l)
         (List.filter (fun a' => bool_decide (a' = a)) (context l)).
Proof.
  unfold add_listener. revert cbs.
  induction (context l) as [|b ctx IH]; intros cbs; simpl.
  - by rewrite app_nil_r.
  - rewrite IH, append_callback_at, <- app_assoc. f_equal.
    destruct (decide (b = a)) as [->|Hne].
    + by rewrite bool_decide_eq_true_2.
    + by rewrite bool_decide_eq_false_2.
Qed.

Lemma fold_add_listener_keys (ls : list Listener) (cbs : list (Z * list nat)) (a : Z) :
  a ∈ map fst (fold_left add_listener ls cbs) ↔ a ∈ map fst cbs ∨ requested ls a.
Proof.
  revert cbs. induction ls as [|l ls IH]; intros cbs; simpl.
  - split; [auto|]. intros [?|(l & Hl & _)]; [done|inversion Hl].
  - rewrite IH, add_listener_keys. unfold requested. split.
    + intros [[?|Hin]|(l' & Hl' & Hin)]; [by left| |].
      * right. exists l. split; [left|done].
      * right. exists l'. split; [by right|done].
    + intros [?|(l' & Hl' & Hin)]; [by left; left|].
      apply elem_of_cons in Hl' as [->|Hl']; [by left; right|].
      right. by exists l'.
Qed.

Lemma fold_add_listener_at (ls : list Listener) (cbs : list (Z * list nat)) (a : Z) :
  callbacks_at (fold_left add_listener ls cbs) a
  = callbacks_at cbs a ++ callbacks_for a ls.
Proof.
  revert cbs. induction ls as [|l ls IH]; intros cbs; simpl.
  - by rewrite app_nil_r.
  - by rewrite IH, add_listener_at, <- app_assoc.
Qed.

(** The keys of [callbacks] are the requested addresses, each once. *)
Lemma collect_callbacks_keys (ls : list Listener) (a : Z) :
  a ∈ map fst (collect_callbacks ls) ↔ requested ls a.
Proof.
  unfold collect_callbacks. rewrite fold_add_listener_keys. simpl.
  split; [|auto]. intros [Hin|?]; [inversion Hin|done].
Qed.

Lemma collect_callbacks_NoDup (ls : list Listener) :
  NoDup (map fst (collect_callbacks ls)).
Proof.
  unfold collect_callbacks. generalize (NoDup_nil_2 (A := Z)).
  change (@nil Z) with (map fst (@nil (Z * list nat))).
  generalize (@nil (Z * list nat)).
  induction ls as [|l ls IH]; intros cbs Hnd; simpl; [assumption|].
  apply IH. by apply add_listener_NoDup.
Qed.

Lemma collect_callbacks_at (ls : list Listener) (a : Z) :
  callbacks_at (collect_callbacks ls) a = callbacks_for a ls.
Proof. unfold collect_callbacks. by rewrite fold_add_listener_at. Qed.

(** ** Event logs *)

Lemma timeouts_address (a : Z) (n : nat) :
  Forall (fun ev => event_address ev = Some a) (timeouts a n).
Proof. unfold timeouts. induction n; simpl; constructor; auto. Qed.

Lemma failed_address (a : Z) (rs : list event) :
  Forall (failed_read a) rs -> Forall (fun ev => event_address ev = Some a) rs.
Proof.
  intros Hrs. eapply Forall_impl; [exact Hrs|]. intros ev [e ->]. reflexivity.
Qed.

Lemma calls_address (a : Z) (cbs : list nat) (s : Cache) :
  Forall (fun ev => event_address ev = Some a) (calls a cbs s).
Proof. unfold calls. induction cbs; simpl; constructor; auto. Qed.

Lemma attempted_address (evs : list event) (a : Z) :
  a ∈ attempted evs -> ∃ ev, ev ∈ evs ∧ event_address ev = Some a.
Proof.
  unfold attempted. rewrite list_elem_of_omap. intros (ev & Hin & Hf).
  exists ev. split; [assumption|]. destruct ev; simpl in *; congruence.
Qed.


Lemma resolvedb_address (evs : list event) (a : Z) :
  resolvedb evs a = true -> ∃ ev, ev ∈ evs ∧ event_address ev = Some a.
Proof.
  unfold resolvedb. rewrite existsb_exists. intros (ev & Hin & Hr).
  exists ev. split; [by apply list_elem_of_In|].
  destruct ev as [a' [v|e]|a' v o|a'|o cb s]; simpl in *; try discriminate;
    by apply bool_decide_eq_true in Hr as ->.
Qed.

Lemma resolvedb_failed (a b : Z) (rs : list event) :
  Forall (failed_read b) rs -> resolvedb rs a = false.
Proof.
  unfold resolvedb. induction 1 as [|ev rs [e ->] _ IH]; simpl; auto.
Qed.

Lemma resolvedb_calls (a b : Z) (cbs : list nat) (s : Cache) :
  resolvedb (calls b cbs s) a = false.
Proof. unfold resolvedb, calls. induction cbs; simpl; auto. Qed.

Lemma updatedb_failed (a b : Z) (rs : list event) :
  Forall (failed_read b) rs -> updatedb rs a = false.
Proof.
  unfold updatedb. induction 1 as [|ev rs [e ->] _ IH]; simpl; auto.
Qed.

Lemma updatedb_calls (a b : Z) (cbs : list nat) (s : Cache) :
  updatedb (calls b cbs s) a = false.
Proof. unfold updatedb, calls. induction cbs; simpl; auto. Qed.

Lemma updatedb_elem (evs : list event) (a : Z) :
  updatedb evs a = true ↔ ∃ v, EvRead a (ReadOk v) ∈ evs.
Proof.
  unfold updatedb. rewrite existsb_exists. split.
  - intros (ev & Hin & Hu). apply list_elem_of_In in Hin.
    destruct ev as [a' [v|e]|a' v o|a'|o cb s]; simpl in *; try discriminate.
    apply bool_decide_eq_true in Hu as ->. by exists v.
  - intros [v Hin]. exists (EvRead a (ReadOk v)).
    split; [by apply list_elem_of_In|]. simpl. by apply bool_decide_eq_true.
Qed.

Lemma notifications_for_app (a : Z) (cb : nat) (l1 l2 : list event) :
  notifications_for a cb (l1 ++ l2)
  = (notifications_for a cb l1 + notifications_for a cb l2)%nat.
Proof. unfold notifications_for. by rewrite List.filter_app, length_app. Qed.

Lemma notifications_for_failed (a b : Z) (cb : nat) (rs : list event) :
  Forall (failed_read b) rs -> notifications_for a cb rs = 0%nat.
Proof.
  unfold notifications_for. induction 1 as [|ev rs [e ->] _ IH]; simpl; auto.
Qed.

Lemma notifications_for_calls (a b : Z) (cb : nat) (cbs : list nat) (s : Cache) :
  notifications_for a cb (calls b cbs s)
  = if decide (b = a) then occurrences cb cbs else 0%nat.
Proof.
  unfold notifications_for, occurrences, calls.
  induction cbs as [|cb' cbs IH]; simpl.
  - by destruct (decide (b = a)).
  - destruct (decide (b = a)) as [->|Hne].
    + rewrite bool_decide_eq_true_2 by done. simpl.
      destruct (bool_decide (cb' = cb)); simpl; by rewrite IH.
    + rewrite bool_decide_eq_false_2 by done. simpl. exact IH.
Qed.

Lemma notifications_for_absent (a : Z) (cb : nat) (evs : list event) :
  (∀ ev, ev ∈ evs -> event_address ev ≠ Some a) ->
  notifications_for a cb evs = 0%nat.
Proof.
  unfold notifications_for. induction evs as [|ev evs IH]; intros Habs; [done|].
  simpl. assert (Hev : is_notify_for a cb ev = false).
  { specialize (Habs ev (list_elem_of_here _ _)).
    destruct ev as [| | |[a'|] cb' s]; simpl in *; try done.
    rewrite bool_decide_eq_false_2; [done|congruence]. }
  rewrite Hev. apply IH. intros ev' Hin. apply Habs. by right.
Qed.

(** ** What every cycle does *)

Section Cycle.
Variable hp : HeatPump.

(** A cycle's events are about the keys of [callbacks] only. *)
Lemma cycle_mentions items res s r s' evs :
  cycle hp items res s r s' evs ->
  ∀ ev, ev ∈ evs -> ∃ a, event_address ev = Some a ∧ a ∈ map fst items.
Proof.
  induction 1 as [res s|a cbs rest res s c n v r s' evs Hfind Hn Hcyc IH
                 |a cbs rest res s rs r s' evs Hrs Hcyc IH
                 |a cbs rest res s e rs Hrs Hne]; intros ev Hin; simpl.
  - inversion Hin.
  - rewrite elem_of_app, elem_of_cons, elem_of_app in Hin.
    destruct Hin as [Hin|[->|[Hin|Hin]]].
    + exists a. split; [|left].
      exact (proj1 (Forall_forall _ _) (timeouts_address a n) ev Hin).
    + exists a. split; [reflexivity|left].
    + exists a. split; [|left].
      exact (proj1 (Forall_forall _ _) (calls_address a cbs _) ev Hin).
    + destruct (IH ev Hin) as (b & Hb & Hin'). exists b. split; [done|by right].
  - rewrite elem_of_app, elem_of_cons, elem_of_app in Hin.
    destruct Hin as [Hin|[->|[Hin|Hin]]].
    + exists a. split; [|left].
      exact (proj1 (Forall_forall _ _) (failed_address a rs Hrs) ev Hin).
    + exists a. split; [reflexivity|left].
    + exists a. split; [|left].
      exact (proj1 (Forall_forall _ _) (calls_address a cbs _) ev Hin).
    + destruct (IH ev Hin) as (b & Hb & Hin'). exists b. split; [done|by right].
  - exists a. split; [|left].
    exact (proj1 (Forall_forall _ _) (failed_address a rs Hrs) ev Hin).
Qed.

Lemma cycle_absent items res s r s' evs a :
  cycle hp items res s r s' evs -> a ∉ map fst items ->
  ∀ ev, ev ∈ evs -> event_address ev ≠ Some a.
Proof.
  intros Hcyc Hnotin ev Hin Hev.
  destruct (cycle_mentions _ _ _ _ _ _ Hcyc ev Hin) as (b & Hb & Hin').
  congruence.
Qed.


(** The [result] dict and the cache at the end of a cycle: the coils of the
    addresses updated in the cycle, over what was there before. *)
Lemma cycle_data items res s r s' evs :
  cycle hp items res s r s' evs ->
  ∀ a, data s' !! a = (if updatedb evs a then find_coil hp a else data s !! a)
       ∧ (∀ res', r = Ok res' ->
            res' !! a = if updatedb evs a then find_coil hp a else res !! a).
Proof.
  induction 1 as [res s|a cbs rest res s c n v r s' evs Hfind Hn Hcyc IH
                 |a cbs rest res s rs r s' evs Hrs Hcyc IH
                 |a cbs rest res s e rs Hrs Hne]; intros b.
  - simpl. split; [reflexivity|]. by intros res' [= ->].
  - destruct (IH b) as [IHd IHr]. unfold updatedb in *.
    rewrite existsb_app. simpl. rewrite existsb_app.
    fold (updatedb (timeouts a n) b). fold (updatedb (calls a cbs (set_data a c (set_value c v s))) b).
    rewrite (updatedb_failed b a) by apply timeouts_failed.
    rewrite updatedb_calls. simpl.
    destruct (existsb _ evs); simpl.
    + rewrite orb_true_r. split; [exact IHd|exact IHr].
    + rewrite orb_false_r.
      destruct (decide (a = b)) as [->|Hne].
      * rewrite bool_decide_eq_true_2 by done.
        split; [rewrite IHd; simpl; by rewrite lookup_insert_eq|].
        intros res' Hres. rewrite (IHr res' Hres). by rewrite lookup_insert_eq.
      * rewrite bool_decide_eq_false_2 by done.
        split; [rewrite IHd; simpl; by rewrite lookup_insert_ne|].
        intros res' Hres. rewrite (IHr res' Hres). by rewrite lookup_insert_ne.
  - destruct (IH b) as [IHd IHr]. unfold updatedb in *.
    rewrite existsb_app. simpl. rewrite existsb_app.
    fold (updatedb rs b). fold (updatedb (calls a cbs s) b).
    rewrite (updatedb_failed b a) by assumption.
    rewrite updatedb_calls. simpl. split; [exact IHd|exact IHr].
  - rewrite (updatedb_failed b a) by assumption. split; [reflexivity|discriminate].
Qed.

(** Calls on account of [a]: the callbacks recorded for [a], when [a] was
    resolved without abort, and none otherwise. *)
Lemma cycle_notifications items res s r s' evs :
  cycle hp items res s r s' evs ->
  NoDup (map fst items) ->
  ∀ a cb, notifications_for a cb evs
          = if resolvedb evs a then occurrences cb (callbacks_at items a) else 0%nat.
Proof.
  induction 1 as [res s|a cbs rest res s c n v r s' evs Hfind Hn Hcyc IH
                 |a cbs rest res s rs r s' evs Hrs Hcyc IH
                 |a cbs rest res s e rs Hrs Hne]; intros Hnd b cb.
  - reflexivity.
  - simpl in Hnd. apply NoDup_cons in Hnd as [Hnotin Hnd].
    rewrite notifications_for_app.
    rewrite (notifications_for_failed b a) by apply timeouts_failed.
    change (EvRead a (ReadOk v) :: ?l) with ([EvRead a (ReadOk v)] ++ l).
    rewrite !notifications_for_app, notifications_for_calls.
    unfold resolvedb. rewrite !existsb_app.
    fold (resolvedb (timeouts a n) b). fold (resolvedb evs b).
    fold (resolvedb (calls a cbs (set_data a c (set_value c v s))) b).
    rewrite (resolvedb_failed b a) by apply timeouts_failed.
    rewrite resolvedb_calls. simpl.
    destruct (decide (a = b)) as [->|Hne].
    + rewrite bool_decide_eq_true_2 by done. simpl.
      rewrite (notifications_for_absent b cb evs); [lia|].
      by eapply cycle_absent.
    + rewrite bool_decide_eq_false_2 by done. simpl. by rewrite IH.
  - simpl in Hnd. apply NoDup_cons in Hnd as [Hnotin Hnd].
    rewrite notifications_for_app.
    rewrite (notifications_for_failed b a) by assumption.
    change (EvSkip a :: ?l) with ([EvSkip a] ++ l).
    rewrite !notifications_for_app, notifications_for_calls.
    unfold resolvedb. rewrite !existsb_app.
    fold (resolvedb rs b). fold (resolvedb evs b).
    fold (resolvedb (calls a cbs s) b).
    rewrite (resolvedb_failed b a) by assumption.
    rewrite resolvedb_calls. simpl.
    destruct (decide (a = b)) as [->|Hne'].
    + rewrite bool_decide_eq_true_2 by done. simpl.
      rewrite (notifications_for_absent b cb evs); [lia|].
      by eapply cycle_absent.
    + rewrite bool_decide_eq_false_2 by done. simpl. by rewrite IH.
  - rewrite (notifications_for_failed b a) by assumption.
    by rewrite (resolvedb_failed b a).
Qed.

(** A callback called on account of [a] after a read of [a] answered [v]
    finds [a]'s coil with value [v] in the cache. *)
Lemma cycle_fresh items res s r s' evs :
  cycle hp items res s r s' evs ->
  NoDup (map fst items) ->
  ∀ a cb seen v,
    EvNotify (Some a) cb seen ∈ evs ->
    EvRead a (ReadOk v) ∈ evs ->
    ∃ c, find_coil hp a = Some c ∧ data seen !! a = Some c
         ∧ coil_value seen c = Some v.
Proof.
  induction 1 as [res s|a cbs rest res s c n v r s' evs Hfind Hn Hcyc IH
                 |a cbs rest res s rs r s' evs Hrs Hcyc IH
                 |a cbs rest res s e rs Hrs Hne]; intros Hnd b cb seen v' Hcall Hread.
  - inversion Hcall.
  - simpl in Hnd. apply NoDup_cons in Hnd as [Hnotin Hnd].
    rewrite elem_of_app, elem_of_cons, elem_of_app in Hcall, Hread.
    assert (Hrest : ∀ ev, ev ∈ evs -> event_address ev = Some a -> False).
    { intros ev Hin Hev. by eapply cycle_absent. }
    destruct Hcall as [Hcall|[Hcall|[Hcall|Hcall]]].
    + apply (proj1 (Forall_forall _ _) (timeouts_failed a n)) in Hcall as [? ?].
      discriminate.
    + discriminate.
    + unfold calls in Hcall. apply list_elem_of_fmap in Hcall as (cb' & Heq & _).
      inversion Heq; subst b cb seen.
      destruct Hread as [Hread|[Hread|[Hread|Hread]]].
      * apply (proj1 (Forall_forall _ _) (timeouts_failed a n)) in Hread as [? ?].
        discriminate.
      * inversion Hread; subst v'. exists c. simpl.
        unfold coil_value. simpl. by rewrite !lookup_insert_eq.
      * apply list_elem_of_fmap in Hread as (? & ? & _). discriminate.
      * exfalso. by apply (Hrest _ Hread).
    + destruct Hread as [Hread|[Hread|[Hread|Hread]]].
      * apply (proj1 (Forall_forall _ _) (timeouts_failed a n)) in Hread as [? ?].
        discriminate.
      * inversion Hread; subst b v'. exfalso. by apply (Hrest _ Hcall).
      * apply list_elem_of_fmap in Hread as (? & ? & _). discriminate.
      * by apply (IH Hnd b cb seen v').
  - simpl in Hnd. apply NoDup_cons in Hnd as [Hnotin Hnd].
    rewrite elem_of_app, elem_of_cons, elem_of_app in Hcall, Hread.
    assert (Hrest : ∀ ev, ev ∈ evs -> event_address ev = Some a -> False).
    { intros ev Hin Hev. by eapply cycle_absent. }
    destruct Hread as [Hread|[Hread|[Hread|Hread]]].
    + apply (proj1 (Forall_forall _ _) Hrs) in Hread as [? ?]. discriminate.
    + discriminate.
    + apply list_elem_of_fmap in Hread as (? & ? & _). discriminate.
    + destruct Hcall as [Hcall|[Hcall|[Hcall|Hcall]]].
      * apply (proj1 (Forall_forall _ _) Hrs) in Hcall as [? ?]. discriminate.
      * discriminate.
      * apply list_elem_of_fmap in Hcall as (cb' & Heq & _).
        inversion Heq; subst b cb seen. exfalso. by apply (Hrest _ Hread).
      * by apply (IH Hnd b cb seen v').
  - apply (proj1 (Forall_forall _ _) Hrs) in Hcall as [? ?]. discriminate.
Qed.
End Cycle.

(** ** The fetch set (C1) *)

Lemma attempted_app (l1 l2 : list event) :
  attempted (l1 ++ l2) = attempted l1 ++ attempted l2.
Proof. unfold attempted. apply omap_app. Qed.

Lemma attempted_failed (a : Z) (rs : list event) :
  Forall (failed_read a) rs -> attempted rs = repeat a (length rs).
Proof.
  induction 1 as [|ev rs [e ->] _ IH]; [done|].
  change (attempted (EvRead a (ReadErr e) :: rs)) with (a :: attempted rs).
  rewrite IH. reflexivity.
Qed.

Lemma attempted_timeouts (a : Z) (n : nat) : attempted (timeouts a n) = repeat a n.
Proof.
  rewrite (attempted_failed a) by apply timeouts_failed.
  unfold timeouts. by rewrite repeat_length.
Qed.

Lemma attempted_calls (a : Z) (cbs : list nat) (s : Cache) :
  attempted (calls a cbs s) = [].
Proof. unfold attempted, calls. induction cbs; simpl; done. Qed.


Lemma repeat_shift {A} (x : A) (n : nat) (l : list A) :
  repeat x n ++ x :: l = x :: repeat x n ++ l.
Proof. induction n as [|n IH]; simpl; [done|]. by rewrite IH. Qed.

(** The attempts of a cycle come in blocks, one per address, in the order of
    the [callbacks] dict: all of its keys when the cycle returns, the keys up
    to the one that raised when it is aborted. *)
Lemma cycle_blocks hp items res s r s' evs :
  cycle hp items res s r s' evs ->
  ∃ blocks, attempted evs = block_attempts blocks
    ∧ match r with
      | Ok _ => map fst blocks = map fst items
      | Raise _ => ∃ pre a cbs post, items = pre ++ (a, cbs) :: post
                                     ∧ map fst blocks = map fst pre ++ [a]
      end.
Proof.
  induction 1 as [res s|b cbs rest res s c n v r s' evs Hfind Hn Hcyc IH
                 |b cbs rest res s rs r s' evs Hrs Hcyc IH
                 |b cbs rest res s e rs Hrs Hne].
  - by exists [].
  - destruct IH as (blocks & Hatt & Hr). exists ((b, n) :: blocks). split.
    + rewrite attempted_app, attempted_timeouts.
      change (EvRead b (ReadOk v) :: ?l) with ([EvRead b (ReadOk v)] ++ l).
      rewrite !attempted_app, attempted_calls, Hatt. unfold block_attempts. simpl.
      apply repeat_shift.
    + destruct r as [res'|e]; simpl; [by rewrite Hr|].
      destruct Hr as (pre & a & cbs' & post & -> & Hkeys).
      exists ((b, cbs) :: pre), a, cbs', post. simpl. by rewrite Hkeys.
  - destruct IH as (blocks & Hatt & Hr). exists ((b, length rs) :: blocks). split.
    + rewrite attempted_app, (attempted_failed b rs Hrs).
      change (EvSkip b :: ?l) with ([EvSkip b] ++ l).
      rewrite !attempted_app, attempted_calls, Hatt. unfold block_attempts. simpl.
      apply repeat_shift.
    + destruct r as [res'|e]; simpl; [by rewrite Hr|].
      destruct Hr as (pre & a & cbs' & post & -> & Hkeys).
      exists ((b, cbs) :: pre), a, cbs', post. simpl. by rewrite Hkeys.
  - exists [(b, pred (length rs))]. split.
    + rewrite (attempted_failed b rs Hrs). unfold block_attempts. simpl.
      rewrite app_nil_r. destruct rs; [done|reflexivity].
    + by exists [], b, cbs, rest.
Qed.

Section FetchSet.
Context {K : Type} `{Connection K}.

Lemma run_cycle (hp : HeatPump) (ls : list Listener) (w : World K) :
  cycle hp (collect_callbacks ls) ∅ (cache w)
    (outcome (_async_update_data hp ls w))
    (cache (final (_async_update_data hp ls w)))
    (log (_async_update_data hp ls w)).
Proof.
  unfold _async_update_data, outcome, final, log.
  destruct (update_loop hp (collect_callbacks ls) ∅ w) as [[r w'] evs] eqn:Hrun.
  simpl. by apply update_loop_cycle.
Qed.

End FetchSet.



(** ** Abort after exhausted retries (C2) *)

Section Abort.
Context {K : Type} `{Connection K}.

(** The loop over [l1 ++ l2] is the loop over [l1] followed by the loop over
    [l2], unless the first raises. *)
Lemma update_loop_app (hp : HeatPump) (l1 l2 : list (Z * list nat))
    (res : gmap Z Coil) (w : World K) :
  update_loop hp (l1 ++ l2) res w
  = bind (update_loop hp l1 res) (update_loop hp l2) w.
Proof.
  revert res w. induction l1 as [|item l1 IH]; intros res w; simpl.
  - unfold bind, ret. destruct (update_loop hp l2 res w) as [[r w'] evs].
    reflexivity.
  - unfold bind.
    destruct (update_address hp item res w) as [[[res1|e] w1] evs1]; [|reflexivity].
    rewrite IH. unfold bind.
    destruct (update_loop hp l1 res1 w1) as [[[res2|e] w2] evs2]; [|reflexivity].
    destruct (update_loop hp l2 res2 w2) as [[r w3] evs3].
    by rewrite app_assoc.
Qed.

(** The turn of an address whose reads all time out. *)
Lemma update_address_exhausted (hp : HeatPump) (a : Z) (cbs : list nat) (c : Coil)
    (res : gmap Z Coil) (w : World K) (k' : K) :
  find_coil hp a = Some c ->
  transient_run COIL_READ_RETRIES (connection w) c = Some k' ->
  update_address hp (a, cbs) res w
  = (Raise (UpdateFailed RetryError), Build_World (cache w) k',
     timeouts a COIL_READ_RETRIES).
Proof.
  intros Hfind Hrun. pose proof (find_coil_address _ _ _ Hfind) as Haddr.
  unfold update_address. simpl fst. simpl snd. unfold bind at 1.
  unfold fetch_address, try_except, get_coil_by_address. fold (find_coil hp a).
  rewrite Hfind. unfold bind at 1. unfold ret at 1. unfold bind at 1.
  unfold read_coil, retry. unfold COIL_READ_RETRIES in *. simpl Nat.pred.
  rewrite (retry_loop_exhausted 4 c w k' Hrun). rewrite Haddr.
  unfold raise. by rewrite app_nil_r.
Qed.

(** C2: when the cycle reaches an address whose read times out on all
    [COIL_READ_RETRIES] = 5 attempts, the cycle raises [UpdateFailed]; its log
    ends with those five reads, so no address after it in iteration order is
    attempted; and the cache is the one the earlier addresses left, their
    updated entries included. *)
Theorem transient_exhaustion_aborts (hp : HeatPump) (ls : list Listener) (w : World K)
    (pre post : list (Z * list nat)) (a : Z) (cbs : list nat) (c : Coil)
    (res1 : gmap Z Coil) (w1 : World K) (evs1 : list event) (k' : K) :
  collect_callbacks ls = pre ++ (a, cbs) :: post ->
  update_loop hp pre ∅ w = (Ok res1, w1, evs1) ->
  find_coil hp a = Some c ->
  transient_run COIL_READ_RETRIES (connection w1) c = Some k' ->
  outcome (_async_update_data hp ls w) = Raise (UpdateFailed RetryError)
  ∧ log (_async_update_data hp ls w) = evs1 ++ timeouts a COIL_READ_RETRIES
  ∧ (∀ b, b ∈ map fst post -> b ∉ attempted (log (_async_update_data hp ls w)))
  ∧ cache (final (_async_update_data hp ls w)) = cache w1
  ∧ (∀ b c', res1 !! b = Some c' ->
       data (cache (final (_async_update_data hp ls w))) !! b = Some c').
Proof.
  intros Hitems Hpre Hfind Hrun.
  pose proof (collect_callbacks_NoDup ls) as Hnd. rewrite Hitems in Hnd.
  pose proof (update_loop_cycle hp pre ∅ w _ _ _ Hpre) as Hcyc.
  assert (Heq : _async_update_data hp ls w
                = (Raise (UpdateFailed RetryError), Build_World (cache w1) k',
                   evs1 ++ timeouts a COIL_READ_RETRIES)).
  { unfold _async_update_data. rewrite Hitems, update_loop_app.
    unfold bind at 1. rewrite Hpre. simpl update_loop. unfold bind at 1.
    by rewrite (update_address_exhausted hp a cbs c res1 w1 k' Hfind Hrun). }
  rewrite Heq. unfold outcome, final, log. simpl.
  repeat split.
  - intros b Hpost Hin.
    rewrite map_app in Hnd. simpl in Hnd.
    apply NoDup_app in Hnd as (_ & Hdisj & Hnd2).
    apply NoDup_cons in Hnd2 as [Hnotin _].
    apply attempted_address in Hin as (ev & Hin & Hev).
    apply elem_of_app in Hin as [Hin|Hin].
    + destruct (cycle_mentions _ _ _ _ _ _ _ Hcyc ev Hin) as (b' & Hb' & Hkey).
      assert (b' = b) as -> by congruence.
      apply (Hdisj b Hkey). by right.
    + pose proof (proj1 (Forall_forall _ _)
                    (timeouts_address a COIL_READ_RETRIES) ev Hin) as Hev'.
      assert (a = b) as -> by congruence. contradiction.
  - intros b c' Hres.
    destruct (cycle_data _ _ _ _ _ _ _ Hcyc b) as [Hdata Hresult].
    rewrite (Hresult res1 eq_refl) in Hres. rewrite Hdata.
    destruct (updatedb evs1 b); [assumption|]. by rewrite lookup_empty in Hres.
Qed.
End Abort.

(** C2 on three listeners: 10 is read, the reads of 20 time out five times,
    30 is never attempted and 10 keeps the value just read. *)
Lemma transient_exhaustion_aborts_witness :
  outcome (_async_update_data pump_three [L1; L3; L4] (world0 [ReadOk (VInt 5)] []))
  = Raise (UpdateFailed RetryError)
  ∧ (30 ∉ attempted (log (_async_update_data pump_three [L1; L3; L4]
                            (world0 [ReadOk (VInt 5)] []))))
  ∧ data (cache (final (_async_update_data pump_three [L1; L3; L4]
                          (world0 [ReadOk (VInt 5)] [])))) !! 10 = Some coil10.
Proof.
  destruct (transient_exhaustion_aborts pump_three [L1; L3; L4]
              (world0 [ReadOk (VInt 5)] [])
              [(10, [1%nat])] [(30, [4%nat])] 20 [3%nat] coil20
              {[ 10 := coil10 ]}
              (final (update_loop pump_three [(10, [1%nat])] ∅
                        (world0 [ReadOk (VInt 5)] [])))
              (log (update_loop pump_three [(10, [1%nat])] ∅
                      (world0 [ReadOk (VInt 5)] [])))
              {| read_queue := []; write_queue := [] |})
    as (Hout & _ & Hlater & _ & Hkept).
  - vm_compute; reflexivity.
  - vm_compute; reflexivity.
  - vm_compute; reflexivity.
  - vm_compute; reflexivity.
  - split; [exact Hout|]. split.
    + apply Hlater. left.
    + apply Hkept. vm_compute; reflexivity.
Defined.

(** ** Notifications per cycle (C3) *)

Lemma occurrences_app (cb : nat) (l1 l2 : list nat) :
  occurrences cb (l1 ++ l2) = (occurrences cb l1 + occurrences cb l2)%nat.
Proof. unfold occurrences. by rewrite List.filter_app, length_app. Qed.

Lemma occurrences_same {A} (cb : nat) (l : list A) :
  occurrences cb (map (fun _ => cb) l) = length l.
Proof.
  unfold occurrences. induction l as [|x l IH]; simpl; [done|].
  rewrite bool_decide_eq_true_2 by done. simpl. by rewrite IH.
Qed.

Lemma occurrences_other {A} (cb cb' : nat) (l : list A) :
  cb' ≠ cb -> occurrences cb (map (fun _ => cb') l) = 0%nat.
Proof.
  intros Hne. unfold occurrences. induction l as [|x l IH]; simpl; [done|].
  rewrite bool_decide_eq_false_2 by done. exact IH.
Qed.

Lemma occurrences_callbacks_for_absent (cb : nat) (a : Z) (ls : list Listener) :
  cb ∉ map update_callback ls -> occurrences cb (callbacks_for a ls) = 0%nat.
Proof.
  unfold callbacks_for. induction ls as [|l ls IH]; simpl; intros Hnotin; [done|].
  rewrite occurrences_app, IH.
  - rewrite occurrences_other; [done|]. intros Heq. apply Hnotin. rewrite Heq. left.
  - intros Hin. apply Hnotin. by right.
Qed.

(** With one listener per callback, the callbacks recorded for [a] hold a
    listener's callback once per occurrence of [a] in its context. *)
Lemma occurrences_callbacks_for (l : Listener) (a : Z) (ls : list Listener) :
  NoDup (map update_callback ls) -> l ∈ ls ->
  occurrences (update_callback l) (callbacks_for a ls)
  = length (List.filter (fun a' => bool_decide (a' = a)) (context l)).
Proof.
  unfold callbacks_for. induction ls as [|l' ls IH]; simpl; intros Hnd Hin.
  - inversion Hin.
  - apply NoDup_cons in Hnd as [Hnotin Hnd]. rewrite occurrences_app.
    apply elem_of_cons in Hin as [->|Hin].
    + rewrite occurrences_same.
      fold (callbacks_for a ls). by rewrite occurrences_callbacks_for_absent.
    + rewrite occurrences_other, IH; [done..|].
      intros Heq. apply Hnotin. rewrite Heq.
      change (map update_callback ls) with (update_callback <$> ls).
      by apply list_elem_of_fmap_2.
Qed.

Lemma filter_eq_absent (a : Z) (ctx : list Z) :
  a ∉ ctx -> List.filter (fun a' => bool_decide (a' = a)) ctx = [].
Proof.
  induction ctx as [|b ctx IH]; simpl; intros Hnotin; [done|].
  rewrite bool_decide_eq_false_2.
  - apply IH. intros Hin. apply Hnotin. by right.
  - intros ->. apply Hnotin. left.
Qed.

Lemma filter_eq_NoDup (a : Z) (ctx : list Z) :
  NoDup ctx ->
  length (List.filter (fun a' => bool_decide (a' = a)) ctx)
  = if bool_decide (a ∈ ctx) then 1%nat else 0%nat.
Proof.
  induction ctx as [|b ctx IH]; simpl; intros Hnd.
  - done.
  - apply NoDup_cons in Hnd as [Hnotin Hnd].
    destruct (decide (b = a)) as [->|Hne].
    + rewrite bool_decide_eq_true_2 by done. simpl.
      rewrite (filter_eq_absent a ctx Hnotin).
      rewrite bool_decide_eq_true_2; [done|left].
    + rewrite bool_decide_eq_false_2 by done. rewrite (IH Hnd).
      destruct (decide (a ∈ ctx)) as [Hin|Hnin].
      * rewrite !bool_decide_eq_true_2; [done|by right|done].
      * rewrite !bool_decide_eq_false_2; [done| |done].
        intros Hin. apply elem_of_cons in Hin as [?|?]; [congruence|done].
Qed.

(** Summing the per-address counts over a context without repetition. *)
Lemma sum_list_indicator (f : Z -> nat) (a0 : Z) (ctx : list Z) :
  NoDup ctx -> a0 ∈ ctx -> f a0 = 1%nat -> (∀ a, a ≠ a0 -> f a = 0%nat) ->
  sum_list (map f ctx) = 1%nat.
Proof.
  intros Hnd Hin H1 H0. induction ctx as [|b ctx IH]; [inversion Hin|].
  apply NoDup_cons in Hnd as [Hnotin Hnd]. simpl.
  destruct (decide (b = a0)) as [->|Hne].
  - rewrite H1. f_equal. clear IH Hin. induction ctx as [|b ctx IH]; [done|].
    simpl. rewrite H0.
    + apply NoDup_cons in Hnd as [_ Hnd]. apply IH; [|done].
      intros Hin'. apply Hnotin. by right.
    + intros ->. apply Hnotin. left.
  - rewrite (H0 b Hne). simpl. apply IH; [done|].
    apply elem_of_cons in Hin as [?|?]; [congruence|done].
Qed.

Lemma sum_list_zero (f : Z -> nat) (ctx : list Z) :
  (∀ a, f a = 0%nat) -> sum_list (map f ctx) = 0%nat.
Proof. intros H0. induction ctx; simpl; [done|]. by rewrite H0, IHctx. Qed.

Lemma sum_list_plus (f g : Z -> nat) (ctx : list Z) :
  sum_list (map (fun a => (f a + g a)%nat) ctx)
  = (sum_list (map f ctx) + sum_list (map g ctx))%nat.
Proof. induction ctx; simpl; [done|]. rewrite IHctx. lia. Qed.

Lemma notifications_sum (cb : nat) (ctx : list Z) (evs : list event) :
  NoDup ctx ->
  (∀ ev, ev ∈ evs -> is_notify cb ev = true ->
         ∃ a, a ∈ ctx ∧ is_notify_for a cb ev = true) ->
  notifications cb evs = sum_list (map (fun a => notifications_for a cb evs) ctx).
Proof.
  intros Hnd. induction evs as [|ev evs IH]; intros Horigin.
  - by rewrite sum_list_zero.
  - unfold notifications, notifications_for. simpl.
    assert (Hstep : ∀ a, length (if is_notify_for a cb ev
                                  then ev :: List.filter (is_notify_for a cb) evs
                                  else List.filter (is_notify_for a cb) evs)
                         = ((if is_notify_for a cb ev then 1 else 0)
                            + notifications_for a cb evs)%nat).
    { intros a. by destruct (is_notify_for a cb ev). }
    rewrite (map_ext _ _ Hstep), sum_list_plus.
    fold (notifications cb evs). rewrite <- IH.
    2: { intros ev' Hin. apply Horigin. by right. }
    destruct (is_notify cb ev) eqn:Hn; simpl.
    + destruct (Horigin ev (list_elem_of_here _ _) Hn) as (a0 & Hin & Hfor).
      rewrite (sum_list_indicator _ a0 ctx Hnd Hin); [done|by rewrite Hfor|].
      intros a Hne. destruct ev as [| | |[a'|] cb' s]; simpl in *; try done.
      apply andb_true_iff in Hfor as [Ha _]. apply bool_decide_eq_true in Ha.
      rewrite bool_decide_eq_false_2; [done|congruence].
    + rewrite sum_list_zero; [done|]. intros a.
      destruct ev as [| | |[a'|] cb' s]; simpl in *; try done.
      rewrite Hn. by rewrite andb_false_r.
Qed.

Lemma sum_list_resolved (evs : list event) (ctx l : list Z) :
  (∀ a, a ∈ l -> a ∈ ctx) ->
  sum_list (map (fun a => if bool_decide (a ∈ ctx) && resolvedb evs a
                          then 1%nat else 0%nat) l)
  = length (List.filter (resolvedb evs) l).
Proof.
  induction l as [|a l IH]; intros Hsub; simpl; [done|].
  rewrite bool_decide_eq_true_2 by (apply Hsub; left). simpl.
  rewrite IH by (intros b Hb; apply Hsub; by right).
  by destruct (resolvedb evs a).
Qed.

Lemma notifications_for_positive (a : Z) (cb : nat) (ev : event) (evs : list event) :
  ev ∈ evs -> is_notify_for a cb ev = true -> (0 < notifications_for a cb evs)%nat.
Proof.
  intros Hin Hfor. unfold notifications_for.
  assert (Hin' : In ev (List.filter (is_notify_for a cb) evs)).
  { apply filter_In. split; [by apply list_elem_of_In|done]. }
  destruct (List.filter (is_notify_for a cb) evs); [inversion Hin'|simpl; lia].
Qed.

Section Notifications.
Context {K : Type} `{Connection K}.

(** C3, as amended: with one listener per callback and an interest set listed
    without repetition, a listener is called once on account of each address
    of its interest set that the cycle resolved without abort (updated, or
    skipped as not found) and never on account of another address; so the
    calls it receives in a cycle number the resolved addresses of its interest
    set. *)
Theorem notified_once_per_resolved_address (hp : HeatPump) (ls : list Listener)
    (w : World K) (l : Listener) :
  l ∈ ls -> NoDup (map update_callback ls) -> NoDup (context l) ->
  (∀ a, notifications_for a (update_callback l) (log (_async_update_data hp ls w))
        = if bool_decide (a ∈ context l)
             && resolvedb (log (_async_update_data hp ls w)) a
          then 1%nat else 0%nat)
  ∧ notifications (update_callback l) (log (_async_update_data hp ls w))
    = length (List.filter (resolvedb (log (_async_update_data hp ls w))) (context l)).
Proof.
  intros Hin Hcbs Hctx.
  pose proof (run_cycle hp ls w) as Hcyc.
  set (evs := log (_async_update_data hp ls w)) in *.
  assert (Hper : ∀ a, notifications_for a (update_callback l) evs
                      = if bool_decide (a ∈ context l) && resolvedb evs a
                        then 1%nat else 0%nat).
  { intros a.
    rewrite (cycle_notifications _ _ _ _ _ _ _ Hcyc (collect_callbacks_NoDup ls)).
    rewrite collect_callbacks_at, (occurrences_callbacks_for l a ls Hcbs Hin).
    rewrite (filter_eq_NoDup a _ Hctx).
    by destruct (resolvedb evs a), (bool_decide (a ∈ context l)). }
  split; [exact Hper|].
  rewrite (notifications_sum _ (context l) evs Hctx).
  - rewrite (map_ext _ _ Hper). by apply sum_list_resolved.
  - intros ev Hev Hn.
    destruct (cycle_mentions _ _ _ _ _ _ _ Hcyc ev Hev) as (a & Ha & _).
    exists a. destruct ev as [| | |o cb s]; simpl in *; try done. subst o.
    assert (Hfor : is_notify_for a (update_callback l) (EvNotify (Some a) cb s) = true).
    { simpl. rewrite Hn. by rewrite bool_decide_eq_true_2. }
    split; [|exact Hfor].
    pose proof (notifications_for_positive _ _ _ _ Hev Hfor) as Hpos.
    rewrite Hper in Hpos.
    destruct (bool_decide (a ∈ context l)) eqn:Hb; [|simpl in Hpos; lia].
    by apply bool_decide_eq_true in Hb.
Qed.
End Notifications.

(** C3 on the specification's scenario (L1 on 10, L2 on 10 and 20; 10 answers
    5 and 20 is not found): L2 is called twice. *)
Lemma notified_once_per_resolved_address_witness :
  L2 ∈ [L1; L2] ∧ NoDup (map update_callback [L1; L2]) ∧ NoDup (context L2)
  ∧ notifications (update_callback L2)
      (log (_async_update_data pump_10 [L1; L2] (world0 [ReadOk (VInt 5)] [])))
    = 2%nat.
Proof.
  assert (Hin : L2 ∈ [L1; L2]) by (right; left).
  assert (Hcbs : NoDup (map update_callback [L1; L2])).
  { apply (bool_decide_unpack _). vm_compute. exact I. }
  assert (Hctx : NoDup (context L2)).
  { apply (bool_decide_unpack _). vm_compute. exact I. }
  split; [exact Hin|]. split; [exact Hcbs|]. split; [exact Hctx|].
  rewrite (proj2 (notified_once_per_resolved_address pump_10 [L1; L2]
                    (world0 [ReadOk (VInt 5)] []) L2 Hin Hcbs Hctx)).
  vm_compute. reflexivity.
Defined.

(** C3 as stated fails twice.  In the specification's scenario address 10 is
    updated and L2, watching 10 and 20, is called twice, not once.  And a
    listener watching 20 alone, where 20 is not found and nothing is updated,
    is still called once. *)
Lemma notified_once_counterexample :
  ¬ notified_once_if_updated
      (log (_async_update_data pump_10 [L1; L2] (world0 [ReadOk (VInt 5)] []))) L2
  ∧ ¬ notified_once_if_updated
        (log (_async_update_data pump_10 [L3] (world0 [] []))) L3.
Proof.
  split; intros [Hone Hnone].
  - assert (Hn : notifications (update_callback L2)
                   (log (_async_update_data pump_10 [L1; L2]
                           (world0 [ReadOk (VInt 5)] []))) = 2%nat)
      by (vm_compute; reflexivity).
    rewrite Hn in Hone. assert (2 = 1)%nat by (apply Hone; vm_compute; reflexivity).
    discriminate.
  - assert (Hn : notifications (update_callback L3)
                   (log (_async_update_data pump_10 [L3] (world0 [] []))) = 1%nat)
      by (vm_compute; reflexivity).
    rewrite Hn in Hnone. assert (1 = 0)%nat by (apply Hnone; vm_compute; reflexivity).
    discriminate.
Qed.

(** ** A coil that is not found (C4) *)

Section NotFound.
Context {K : Type} `{Connection K}.

End NotFound.


(** ** Cache before callbacks, and the returned map (C5) *)

Section Fresh.
Context {K : Type} `{Connection K}.

(** C5: a callback called on account of an address whose read answered [v]
    in this cycle reads [v] from the cache for that address; and the dict a
    cycle returns maps exactly the addresses updated in the cycle, each to its
    coil, whatever else the cache holds. *)
Theorem cache_written_before_callbacks (hp : HeatPump) (ls : list Listener)
    (w : World K) :
  (∀ a cb seen v coil,
     EvNotify (Some a) cb seen ∈ log (_async_update_data hp ls w) ->
     EvRead a (ReadOk v) ∈ log (_async_update_data hp ls w) ->
     address coil = a ->
     get_coil_value seen coil = Some v)
  ∧ (∀ res, outcome (_async_update_data hp ls w) = Ok res ->
       ∀ a, res !! a = if updatedb (log (_async_update_data hp ls w)) a
                       then find_coil hp a else None).
Proof.
  pose proof (run_cycle hp ls w) as Hcyc. split.
  - intros a cb seen v coil Hcall Hread Haddr.
    destruct (cycle_fresh _ _ _ _ _ _ _ Hcyc (collect_callbacks_NoDup ls)
                a cb seen v Hcall Hread) as (c & _ & Hdata & Hval).
    unfold get_coil_value. by rewrite Haddr, Hdata.
  - intros res Hok a.
    destruct (cycle_data _ _ _ _ _ _ _ Hcyc a) as [_ Hres].
    rewrite (Hres res Hok). by rewrite lookup_empty.
Qed.
End Fresh.

(** C5 on the specification's scenario, started with address 20 already in
    the cache: the callback of L1 reads 5 for address 10, and the returned
    dict has 10 and not 20. *)
Lemma cache_written_before_callbacks_witness :
  EvNotify (Some 10) 1
    {| data := {[ 10 := coil10; 20 := coil20 ]}; values := {[ 1%nat := VInt 5 ]} |}
    ∈ log (_async_update_data pump_10 [L1; L2]
             (Build_World {| data := {[ 20 := coil20 ]}; values := ∅ |}
                {| read_queue := [ReadOk (VInt 5)]; write_queue := [] |}))
  ∧ get_coil_value
      {| data := {[ 10 := coil10; 20 := coil20 ]}; values := {[ 1%nat := VInt 5 ]} |}
      coil10 = Some (VInt 5)
  ∧ outcome (_async_update_data pump_10 [L1; L2]
               (Build_World {| data := {[ 20 := coil20 ]}; values := ∅ |}
                  {| read_queue := [ReadOk (VInt 5)]; write_queue := [] |}))
    = Ok {[ 10 := coil10 ]}
  ∧ ({[ 10 := coil10 ]} : gmap Z Coil) !! 20 = None.
Proof.
  set (w := Build_World {| data := {[ 20 := coil20 ]}; values := ∅ |}
              {| read_queue := [ReadOk (VInt 5)]; write_queue := [] |}).
  set (seen := {| data := {[ 10 := coil10; 20 := coil20 ]};
                  values := {[ 1%nat := VInt 5 ]} |}).
  assert (Hlog : log (_async_update_data pump_10 [L1; L2] w)
                 = [EvRead 10 (ReadOk (VInt 5)); EvNotify (Some 10) 1 seen;
                    EvNotify (Some 10) 2 seen; EvSkip 20;
                    EvNotify (Some 20) 2 seen])
    by (vm_compute; reflexivity).
  assert (Hcall : EvNotify (Some 10) 1 seen ∈ log (_async_update_data pump_10 [L1; L2] w)).
  { rewrite Hlog. right; left. }
  assert (Hread : EvRead 10 (ReadOk (VInt 5)) ∈ log (_async_update_data pump_10 [L1; L2] w)).
  { rewrite Hlog. left. }
  assert (Hok : outcome (_async_update_data pump_10 [L1; L2] w) = Ok {[ 10 := coil10 ]})
    by (vm_compute; reflexivity).
  destruct (cache_written_before_callbacks pump_10 [L1; L2] w) as [Hfresh Hres].
  split; [exact Hcall|].
  split; [exact (Hfresh 10 1%nat seen (VInt 5) coil10 Hcall Hread eq_refl)|].
  split; [exact Hok|].
  rewrite (Hres _ Hok 20). vm_compute. reflexivity.
Defined.

(** ** The write path (C6 to C9) *)

Lemma notified_listeners (ls : list Listener) (s : Cache) :
  notified (map (fun l => EvNotify None (update_callback l) s) ls)
  = map update_callback ls.
Proof.
  induction ls as [|l ls IH]; [done|].
  simpl. unfold notified in *. simpl. by rewrite IH.
Qed.

Lemma notified_fanout (ev : event) (ls : list Listener) (s : Cache) :
  notified [ev] = [] ->
  notified (ev :: map (fun l => EvNotify None (update_callback l) s) ls)
  = map update_callback ls.
Proof.
  intros Hev. change (ev :: ?l) with ([ev] ++ l).
  unfold notified at 1. rewrite omap_app. fold (notified [ev]).
  rewrite Hev. simpl. apply notified_listeners.
Qed.

Section Write.
Context {K : Type} `{Connection K} `{CoilSetter}.

(** What a write does, by the setter's and the connection's answers and the
    cache it finds. *)
Lemma async_write_coil_run (ls : list Listener) (c : Coil) (v : Val) (w : World K) :
  async_write_coil ls c v w
  = match coil_setter c v with
    | inl e => (Raise e, w, [])
    | inr v' =>
        match write_response (connection w) c (Some v') with
        | (WriteOk, k) =>
            if bool_decide (data (cache w) = ∅) then
              (Ok tt, Build_World (set_value c v' (cache w)) k,
               [EvWrite (address c) (Some v') WriteOk])
            else
              (Ok tt, Build_World (set_data (address c) c (set_value c v' (cache w))) k,
               EvWrite (address c) (Some v') WriteOk
                 :: map (fun l => EvNotify None (update_callback l)
                                    (set_data (address c) c (set_value c v' (cache w)))) ls)
        | (WriteErr e, k) =>
            (Raise e, Build_World (set_value c v' (cache w)) k,
             [EvWrite (address c) (Some v') (WriteErr e)])
        end
    end.
Proof.
  unfold async_write_coil. unfold bind at 1. unfold assign_value.
  destruct (coil_setter c v) as [e|v']; [reflexivity|].
  unfold modify_cache at 1.
  unfold bind at 1. unfold connection_write_coil. simpl.
  unfold coil_value. simpl. rewrite lookup_insert_eq.
  destruct (write_response (connection w) c (Some v')) as [[|e] k]; [|reflexivity].
  unfold bind at 1. unfold get_cache at 1. simpl.
  destruct (bool_decide (data (cache w) = ∅)); [reflexivity|].
  unfold bind, modify_cache. simpl. by rewrite async_update_listeners_run.
Qed.

(** A write that fails at the connection raises the connection's error after
    one attempt and calls no callback; the cache dict is as before, and the
    coil object passed in carries the value that was to be written. *)
Lemma async_write_coil_failure (ls : list Listener) (c : Coil) (v v' : Val)
    (w : World K) (e : exn) (k' : K) :
  coil_setter c v = inr v' ->
  write_response (connection w) c (Some v') = (WriteErr e, k') ->
  outcome (async_write_coil ls c v w) = Raise e
  ∧ writes (log (async_write_coil ls c v w)) = [address c]
  ∧ notified (log (async_write_coil ls c v w)) = []
  ∧ data (cache (final (async_write_coil ls c v w))) = data (cache w)
  ∧ values (cache (final (async_write_coil ls c v w)))
    = <[coil_id c := v']> (values (cache w)).
Proof.
  intros Hset Hresp. rewrite async_write_coil_run, Hset, Hresp. by repeat split.
Qed.

(** So when the coil passed in is the object the cache holds for its address,
    the cache read after a failed write returns the value that was not
    written. *)
Lemma async_write_coil_failure_aliased (ls : list Listener) (c c' : Coil) (v v' : Val)
    (w : World K) (e : exn) (k' : K) :
  coil_setter c v = inr v' ->
  write_response (connection w) c (Some v') = (WriteErr e, k') ->
  data (cache w) !! address c = Some c' -> coil_id c' = coil_id c ->
  get_coil_value (cache (final (async_write_coil ls c v w))) c = Some v'.
Proof.
  intros Hset Hresp Hdata Hid.
  destruct (async_write_coil_failure ls c v v' w e k' Hset Hresp)
    as (_ & _ & _ & Hd & Hv).
  unfold get_coil_value, coil_value. rewrite Hd, Hdata, Hv, Hid.
  apply lookup_insert_eq.
Qed.
End Write.

(** An address updated in a cycle is in the cache when the cycle ends. *)
Lemma cycle_updated_cached hp items res s r s' evs a :
  cycle hp items res s r s' evs -> updatedb evs a = true -> is_Some (data s' !! a).
Proof.
  induction 1 as [res s|b cbs rest res s c n v r s' evs Hfind Hn Hcyc IH
                 |b cbs rest res s rs r s' evs Hrs Hcyc IH
                 |b cbs rest res s e rs Hrs Hne]; intros Hup.
  - discriminate.
  - destruct (updatedb evs a) eqn:Hrest; [by apply IH|].
    unfold updatedb in Hup, Hrest. rewrite existsb_app in Hup. simpl in Hup.
    rewrite existsb_app, Hrest in Hup.
    fold (updatedb (timeouts b n) a) in Hup.
    fold (updatedb (calls b cbs (set_data b c (set_value c v s))) a) in Hup.
    rewrite (updatedb_failed a b) in Hup by apply timeouts_failed.
    rewrite updatedb_calls in Hup. simpl in Hup. rewrite orb_false_r in Hup.
    apply bool_decide_eq_true in Hup as ->.
    destruct (cycle_data _ _ _ _ _ _ _ Hcyc a) as [Hdata _].
    unfold updatedb in Hdata. rewrite Hrest in Hdata. rewrite Hdata. simpl.
    rewrite lookup_insert_eq. by eexists.
  - apply IH. unfold updatedb in Hup |- *. rewrite existsb_app in Hup. simpl in Hup.
    rewrite existsb_app in Hup.
    fold (updatedb rs a) in Hup. fold (updatedb (calls b cbs s) a) in Hup.
    rewrite (updatedb_failed a b) in Hup by assumption.
    by rewrite updatedb_calls in Hup.
  - by rewrite (updatedb_failed a b) in Hup.
Qed.

Section WriteClaims.
Context {K : Type} `{Connection K} `{CoilSetter}.

(** C6, as amended: when the coil accepts the value and the connection
    accepts the write, each registered listener's callback is called if and
    only if the cache held at least one entry when the write was made.  So a
    write into the empty cache calls no callback, and a write after a refresh
    cycle that updated some address calls the callback of every listener
    watching the written address. *)
Theorem write_notifies_iff_cache_nonempty (ls : list Listener) (c : Coil) (v v' : Val)
    (w : World K) (k' : K) :
  coil_setter c v = inr v' ->
  write_response (connection w) c (Some v') = (WriteOk, k') ->
  outcome (async_write_coil ls c v w) = Ok tt
  ∧ (∀ l, l ∈ ls ->
       (update_callback l ∈ notified (log (async_write_coil ls c v w))
        ↔ data (cache w) ≠ ∅))
  ∧ (data (cache w) = ∅ -> notified (log (async_write_coil ls c v w)) = [])
  ∧ (∀ (hp : HeatPump) (ls0 : list Listener) (w0 : World K) (a : Z),
       cache w = cache (final (_async_update_data hp ls0 w0)) ->
       updatedb (log (_async_update_data hp ls0 w0)) a = true ->
       ∀ l, l ∈ ls -> address c ∈ context l ->
            update_callback l ∈ notified (log (async_write_coil ls c v w))).
Proof.
  intros Hset Hresp. rewrite async_write_coil_run, Hset, Hresp.
  assert (Hall : data (cache w) ≠ ∅ -> ∀ l, l ∈ ls ->
            update_callback l ∈ notified
              (EvWrite (address c) (Some v') WriteOk
                 :: map (fun l => EvNotify None (update_callback l)
                                    (set_data (address c) c (set_value c v' (cache w)))) ls)).
  { intros _ l Hin. rewrite notified_fanout by reflexivity.
    change (map update_callback ls) with (update_callback <$> ls).
    by apply list_elem_of_fmap_2. }
  destruct (decide (data (cache w) = ∅)) as [Hempty|Hfull].
  - rewrite bool_decide_eq_true_2 by done. unfold outcome, log. simpl.
    split; [done|]. split; [|split; [done|]].
    + intros l _. split; [intros Hin; inversion Hin|done].
    + intros hp ls0 w0 a Hcache Hup. exfalso.
      pose proof (cycle_updated_cached _ _ _ _ _ _ _ a (run_cycle hp ls0 w0) Hup)
        as [c' Hc'].
      rewrite <- Hcache, Hempty in Hc'. by rewrite lookup_empty in Hc'.
  - rewrite bool_decide_eq_false_2 by done. unfold outcome, log. simpl.
    split; [done|]. split; [|split; [done|]].
    + intros l Hin. split; [done|]. intros _. by apply Hall.
    + intros hp ls0 w0 a _ _ l Hin _. by apply Hall.
Qed.

(** C9: when the coil accepts the value, the connection accepts the write
    and the cache is not empty, the callbacks called are those of all
    registered listeners, each once, in registration order, whether or not the
    written address is in the listener's context. *)
Theorem write_notifies_every_listener (ls : list Listener) (c : Coil) (v v' : Val)
    (w : World K) (k' : K) :
  coil_setter c v = inr v' ->
  write_response (connection w) c (Some v') = (WriteOk, k') ->
  data (cache w) ≠ ∅ ->
  notified (log (async_write_coil ls c v w)) = map update_callback ls
  ∧ (∀ l, l ∈ ls -> update_callback l ∈ notified (log (async_write_coil ls c v w))).
Proof.
  intros Hset Hresp Hfull. rewrite async_write_coil_run, Hset, Hresp.
  rewrite bool_decide_eq_false_2 by done. unfold log. cbn [snd].
  rewrite notified_fanout by reflexivity. split; [done|].
  intros l Hin. change (map update_callback ls) with (update_callback <$> ls).
  by apply list_elem_of_fmap_2.
Qed.

(** C7, as amended: after a write whose value the coil accepts and that the
    connection accepts, a cache read for the written address returns the
    value the coil stored for the written one (the setter's normal form of
    it) when the cache held at least one entry at the time of the write; when
    the cache was empty, the write does not enter the cache and the read
    returns [None]. *)
Theorem write_then_read (ls : list Listener) (c : Coil) (v v' : Val)
    (w : World K) (k' : K) :
  coil_setter c v = inr v' ->
  write_response (connection w) c (Some v') = (WriteOk, k') ->
  (data (cache w) ≠ ∅ ->
   ∀ coil, address coil = address c ->
           get_coil_value (cache (final (async_write_coil ls c v w))) coil = Some v')
  ∧ (data (cache w) = ∅ ->
     ∀ coil, get_coil_value (cache (final (async_write_coil ls c v w))) coil = None).
Proof.
  intros Hset Hresp. rewrite async_write_coil_run, Hset, Hresp. split.
  - intros Hfull coil Haddr. rewrite bool_decide_eq_false_2 by done.
    unfold final, get_coil_value, coil_value. simpl.
    by rewrite Haddr, !lookup_insert_eq.
  - intros Hempty coil. rewrite bool_decide_eq_true_2 by done.
    unfold final, get_coil_value. simpl. by rewrite Hempty, lookup_empty.
Qed.
End WriteClaims.

(** C6 on a cache filled by a refresh cycle (the callback of L1, watching the
    written address 10, is called) and on the empty cache (no callback). *)
Lemma write_notifies_iff_cache_nonempty_witness :
  coil_setter coil10 (VInt 7) = inr (VInt 7)
  ∧ write_response
      (connection (final (_async_update_data pump_10 [L1]
                            (world0 [ReadOk (VInt 5)] [WriteOk]))))
      coil10 (Some (VInt 7)) = (WriteOk, idle)
  ∧ updatedb (log (_async_update_data pump_10 [L1]
                     (world0 [ReadOk (VInt 5)] [WriteOk]))) 10 = true
  ∧ update_callback L1
    ∈ notified (log (async_write_coil [L1] coil10 (VInt 7)
                       (final (_async_update_data pump_10 [L1]
                                 (world0 [ReadOk (VInt 5)] [WriteOk])))))
  ∧ notified (log (async_write_coil [L1] coil10 (VInt 7) (world0 [] [WriteOk]))) = [].
Proof.
  set (w0 := world0 [ReadOk (VInt 5)] [WriteOk]).
  set (w := final (_async_update_data pump_10 [L1] w0)).
  assert (Hset : coil_setter coil10 (VInt 7) = inr (VInt 7)) by reflexivity.
  assert (Hresp : write_response (connection w) coil10 (Some (VInt 7)) = (WriteOk, idle))
    by (vm_compute; reflexivity).
  assert (Hup : updatedb (log (_async_update_data pump_10 [L1] w0)) 10 = true)
    by (vm_compute; reflexivity).
  split; [exact Hset|]. split; [exact Hresp|]. split; [exact Hup|]. split.
  - destruct (write_notifies_iff_cache_nonempty [L1] coil10 (VInt 7) (VInt 7) w idle
                Hset Hresp) as (_ & _ & _ & Hafter).
    apply (Hafter pump_10 [L1] w0 10 eq_refl Hup L1); left.
  - assert (Hresp0 : write_response (connection (world0 [] [WriteOk])) coil10
                       (Some (VInt 7)) = (WriteOk, idle)) by (vm_compute; reflexivity).
    destruct (write_notifies_iff_cache_nonempty [L1] coil10 (VInt 7) (VInt 7)
                (world0 [] [WriteOk]) idle Hset Hresp0) as (_ & _ & Hempty & _).
    by apply Hempty.
Defined.

(** C6 as stated fails after a refresh that succeeds without updating
    anything.  A cycle with no listener registered returns the empty dict and
    leaves the cache empty; a listener on address 10 registers; the write of 7
    to coil 10 that follows succeeds, and the listener is not called. *)
Lemma write_after_empty_refresh_counterexample :
  outcome (_async_update_data pump_10 [] (world0 [] [WriteOk])) = Ok ∅
  ∧ outcome (async_write_coil [L1] coil10 (VInt 7)
               (final (_async_update_data pump_10 [] (world0 [] [WriteOk])))) = Ok tt
  ∧ address coil10 ∈ context L1
  ∧ ¬ (update_callback L1
       ∈ notified (log (async_write_coil [L1] coil10 (VInt 7)
                          (final (_async_update_data pump_10 []
                                    (world0 [] [WriteOk])))))).
Proof.
  split; [vm_compute; reflexivity|]. split; [vm_compute; reflexivity|].
  split; [left|].
  assert (Hlog : notified (log (async_write_coil [L1] coil10 (VInt 7)
                                  (final (_async_update_data pump_10 []
                                            (world0 [] [WriteOk]))))) = [])
    by (vm_compute; reflexivity).
  rewrite Hlog. intros Hin. inversion Hin.
Qed.

(** C9 with listeners on 10 and on 20: a write of coil 10 calls both. *)
Lemma write_notifies_every_listener_witness :
  coil_setter coil10 (VInt 7) = inr (VInt 7)
  ∧ write_response (write_only WriteOk) coil10 (Some (VInt 7)) = (WriteOk, idle)
  ∧ data cache_10_5 ≠ ∅
  ∧ (address coil10 ∉ context L3)
  ∧ update_callback L3
    ∈ notified (log (async_write_coil [L1; L3] coil10 (VInt 7)
                       (Build_World cache_10_5 (write_only WriteOk)))).
Proof.
  assert (Hset : coil_setter coil10 (VInt 7) = inr (VInt 7)) by reflexivity.
  assert (Hresp : write_response
                    (connection (Build_World cache_10_5 (write_only WriteOk)))
                    coil10 (Some (VInt 7)) = (WriteOk, idle))
    by (vm_compute; reflexivity).
  assert (Hfull : data (cache (Build_World cache_10_5 (write_only WriteOk))) ≠ ∅).
  { intros Heq. apply (f_equal (fun m : gmap Z Coil => m !! 10)) in Heq.
    vm_compute in Heq. discriminate. }
  split; [exact Hset|]. split; [exact Hresp|]. split; [exact Hfull|]. split.
  - intros Hin. apply elem_of_cons in Hin as [Heq|Hin]; [discriminate|inversion Hin].
  - apply (proj2 (write_notifies_every_listener [L1; L3] coil10 (VInt 7) (VInt 7)
                    (Build_World cache_10_5 (write_only WriteOk)) idle
                    Hset Hresp Hfull)).
    right; left.
Defined.

(** C7 on a cache that holds coil 10, a coil with the mappings OFF and ON:
    the read after the write of "on" returns "ON". *)
Lemma write_then_read_witness :
  switch_setter coil10 (VStr "on") = inr (VStr "ON")
  ∧ write_response (write_only WriteOk) coil10 (Some (VStr "ON")) = (WriteOk, idle)
  ∧ data cache_10_5 ≠ ∅
  ∧ get_coil_value
      (cache (final (@async_write_coil Script script_connection switch_setter
                       [L1] coil10 (VStr "on")
                       (Build_World cache_10_5 (write_only WriteOk)))))
      coil10 = Some (VStr "ON").
Proof.
  assert (Hset : @coil_setter switch_setter coil10 (VStr "on") = inr (VStr "ON"))
    by (vm_compute; reflexivity).
  assert (Hresp : write_response
                    (connection (Build_World cache_10_5 (write_only WriteOk)))
                    coil10 (Some (VStr "ON")) = (WriteOk, idle))
    by (vm_compute; reflexivity).
  assert (Hfull : data (cache (Build_World cache_10_5 (write_only WriteOk))) ≠ ∅).
  { intros Heq. apply (f_equal (fun m : gmap Z Coil => m !! 10)) in Heq.
    vm_compute in Heq. discriminate. }
  split; [exact Hset|]. split; [exact Hresp|]. split; [exact Hfull|].
  exact (proj1 (@write_then_read Script script_connection switch_setter
                  [L1] coil10 (VStr "on") (VStr "ON")
                  (Build_World cache_10_5 (write_only WriteOk)) idle Hset Hresp)
           Hfull coil10 eq_refl).
Defined.

(** C7 as stated fails on the empty cache: the connection accepts the write
    of 7 to coil 10, and the cache read for coil 10 that follows returns
    [None]. *)
Lemma write_then_read_counterexample :
  outcome (async_write_coil [L1] coil10 (VInt 7) (world0 [] [WriteOk])) = Ok tt
  ∧ get_coil_value
      (cache (final (async_write_coil [L1] coil10 (VInt 7) (world0 [] [WriteOk]))))
      coil10 ≠ Some (VInt 7).
Proof.
  split; [vm_compute; reflexivity|].
  assert (Hread : get_coil_value
                    (cache (final (async_write_coil [L1] coil10 (VInt 7)
                                     (world0 [] [WriteOk])))) coil10 = None)
    by (vm_compute; reflexivity).
  rewrite Hread. discriminate.
Qed.

(** C8 at its failing input.  A refresh cycle reads 5 for coil 10 and the
    entity of coil 10 handles the update; the entity then writes 7 and the
    connection refuses.  The error reaches the caller after one attempt, no
    callback is called and the cache dict is as the cycle left it, but the
    cache read for coil 10, 5 before the write, now returns 7: the cached coil
    is the object the entity passed, and [coil.value = value] ran before the
    connection was asked. *)
Lemma failed_write_changes_cached_value :
  let failure := OtherException "CoilWriteException" in
  let listeners := [entity_listener 1 entity10] in
  let refresh := _async_update_data pump_10 listeners
                   (world0 [ReadOk (VInt 5)] [WriteErr failure]) in
  let entity := deliver 1 (log refresh) entity10 in
  let write := _async_write_coil listeners entity (VInt 7) (final refresh) in
  get_coil_value (cache (final refresh)) coil10 = Some (VInt 5)
  ∧ outcome write = Raise failure
  ∧ writes (log write) = [10]
  ∧ notified (log write) = []
  ∧ data (cache (final write)) = data (cache (final refresh))
  ∧ get_coil_value (cache (final write)) coil10 = Some (VInt 7).
Proof. vm_compute. repeat split. Qed.

(** ** Reading a coil as a float (C10) *)

(** C10: [get_coil_float] returns [None] when the cached value is falsy, in
    particular the integer 0 and the floats 0.0 and -0.0, and when the address
    has no cache entry; when it returns a float, the cached value is present
    and truthy and the float is [float(value)]. *)
Theorem get_coil_float_none_on_zero (parse : string -> option spec_float)
    (s : Cache) (coil : Coil) :
  (get_coil_value s coil = Some (VInt 0) -> get_coil_float parse s coil = inr None)
  ∧ (∀ sign, get_coil_value s coil = Some (VFloat (S754_zero sign)) ->
             get_coil_float parse s coil = inr None)
  ∧ (∀ v, get_coil_value s coil = Some v -> truthy v = false ->
          get_coil_float parse s coil = inr None)
  ∧ (data s !! address coil = None -> get_coil_float parse s coil = inr None)
  ∧ (∀ f, get_coil_float parse s coil = inr (Some f) ->
          ∃ v, get_coil_value s coil = Some v ∧ truthy v = true
               ∧ py_float parse v = inr f).
Proof.
  unfold get_coil_float. repeat split.
  - by intros ->.
  - by intros sign ->.
  - by intros v -> ->.
  - unfold get_coil_value. by intros ->.
  - intros f Hf. destruct (get_coil_value s coil) as [v|]; [|discriminate].
    exists v. destruct (truthy v); [|discriminate].
    destruct (py_float parse v) as [e|f']; [discriminate|].
    by inversion Hf.
Qed.

(** C10 on a cache that holds coil 10 with value 0, and on one that holds it
    with value 5: [None] for the first, the float 5.0 for the second. *)
Lemma get_coil_float_none_on_zero_witness :
  get_coil_value {| data := {[ 10 := coil10 ]}; values := {[ 1%nat := VInt 0 ]} |} coil10
  = Some (VInt 0)
  ∧ get_coil_float (fun _ => None)
      {| data := {[ 10 := coil10 ]}; values := {[ 1%nat := VInt 0 ]} |} coil10
    = inr None
  ∧ get_coil_float (fun _ => None) cache_10_5 coil10
    = inr (Some (S754_finite false 5629499534213120 (-50)))
  ∧ (∃ v, get_coil_value cache_10_5 coil10 = Some v ∧ truthy v = true
          ∧ py_float (fun _ => None) v
            = inr (S754_finite false 5629499534213120 (-50))).
Proof.
  assert (Hzero : get_coil_value
                    {| data := {[ 10 := coil10 ]}; values := {[ 1%nat := VInt 0 ]} |}
                    coil10 = Some (VInt 0)) by (vm_compute; reflexivity).
  assert (Hfive : get_coil_float (fun _ => None) cache_10_5 coil10
                  = inr (Some (S754_finite false 5629499534213120 (-50))))
    by (vm_compute; reflexivity).
  split; [exact Hzero|]. split; [|split; [exact Hfive|]].
  - exact (proj1 (get_coil_float_none_on_zero (fun _ => None) _ coil10) Hzero).
  - destruct (get_coil_float_none_on_zero (fun _ => None) cache_10_5 coil10)
      as (_ & _ & _ & _ & Hfloat).
    exact (Hfloat _ Hfive).
Defined.

(** * Further properties of the module *)

(** ** The [callbacks] dict of a cycle *)

Lemma callbacks_at_entry (items : list (Z * list nat)) (a : Z) (cbs : list nat) :
  NoDup (map fst items) -> (a, cbs) ∈ items -> callbacks_at items a = cbs.
Proof.
  induction items as [|[b l] rest IH]; simpl; intros Hnd Hin; [inversion Hin|].
  apply NoDup_cons in Hnd as [Hnotin Hnd].
  apply elem_of_cons in Hin as [Heq|Hin].
  - inversion Heq; subst. by rewrite decide_True.
  - rewrite decide_False; [by apply IH|]. intros ->. apply Hnotin.
    change (map fst rest) with (fst <$> rest).
    by apply (list_elem_of_fmap_2 fst rest (a, cbs)).
Qed.

Lemma callbacks_for_requested (ls : list Listener) (a : Z) :
  requested ls a -> callbacks_for a ls ≠ [].
Proof.
  intros (l & Hl & Ha). unfold callbacks_for.
  induction ls as [|l' ls IH]; [inversion Hl|]. simpl.
  apply elem_of_cons in Hl as [->|Hl].
  - intros Hnil. apply app_eq_nil in Hnil as [Hnil _].
    apply map_eq_nil in Hnil.
    assert (Hin : In a (List.filter (fun a' => bool_decide (a' = a)) (context l'))).
    { apply filter_In. split; [by apply list_elem_of_In|by apply bool_decide_eq_true]. }
    rewrite Hnil in Hin. inversion Hin.
  - intros Hnil. apply app_eq_nil in Hnil as [_ Hnil]. by apply IH.
Qed.

(** X1: the [callbacks] dict built at the start of a cycle has one key per
    requested address and no other key, and each entry is the non-empty list
    of the callbacks of the listeners watching that address, in registration
    order. *)
Theorem callbacks_dict_spec (ls : list Listener) :
  NoDup (map fst (collect_callbacks ls))
  ∧ (∀ a, a ∈ map fst (collect_callbacks ls) ↔ requested ls a)
  ∧ (∀ a cbs, (a, cbs) ∈ collect_callbacks ls ->
              cbs = callbacks_for a ls ∧ cbs ≠ []).
Proof.
  split; [apply collect_callbacks_NoDup|]. split; [apply collect_callbacks_keys|].
  intros a cbs Hin.
  assert (Hcbs : cbs = callbacks_for a ls).
  { rewrite <- collect_callbacks_at.
    symmetry. by apply callbacks_at_entry; [apply collect_callbacks_NoDup|]. }
  split; [exact Hcbs|]. rewrite Hcbs. apply callbacks_for_requested.
  apply collect_callbacks_keys. change (map fst ?l) with (fst <$> l).
  by apply (list_elem_of_fmap_2 fst _ (a, cbs)).
Qed.

(** X1 on listeners L1 -> {10} and L2 -> {10, 20}. *)
Lemma callbacks_dict_spec_witness :
  (10, [1%nat; 2%nat]) ∈ collect_callbacks [L1; L2]
  ∧ [1%nat; 2%nat] = callbacks_for 10 [L1; L2].
Proof.
  assert (Hin : (10, [1%nat; 2%nat]) ∈ collect_callbacks [L1; L2]).
  { assert (Heq : collect_callbacks [L1; L2] = [(10, [1%nat; 2%nat]); (20, [2%nat])])
      by (vm_compute; reflexivity).
    rewrite Heq. left. }
  split; [exact Hin|].
  exact (proj1 (proj2 (proj2 (callbacks_dict_spec [L1; L2])) _ _ Hin)).
Defined.

Lemma append_callback_key_order (cbs : list (Z * list nat)) (a : Z) (cb : nat) :
  map fst (append_callback cbs a cb)
  = if bool_decide (a ∈ map fst cbs) then map fst cbs else map fst cbs ++ [a].
Proof.
  induction cbs as [|[b l] rest IH]; simpl; [done|].
  destruct (decide (b = a)) as [->|Hne]; simpl.
  - rewrite bool_decide_eq_true_2; [done|left].
  - rewrite IH. destruct (decide (a ∈ map fst rest)) as [Hin|Hnin].
    + rewrite !bool_decide_eq_true_2; [done|by right|done].
    + rewrite !bool_decide_eq_false_2; [done| |done].
      intros Hin. apply elem_of_cons in Hin as [?|?]; [congruence|done].
Qed.

Lemma fold_add_listener_key_order (ls : list Listener) (cbs : list (Z * list nat)) :
  map fst (fold_left add_listener ls cbs)
  = fold_left (fun acc a => if bool_decide (a ∈ acc) then acc else acc ++ [a])
      (concat (map context ls)) (map fst cbs).
Proof.
  revert cbs. induction ls as [|l ls IH]; intros cbs; simpl; [done|].
  rewrite fold_left_app, IH. f_equal.
  unfold add_listener. generalize (context l) as ctx. clear.
  intros ctx. revert cbs. induction ctx as [|a ctx IH]; intros cbs; simpl; [done|].
  by rewrite IH, append_callback_key_order.
Qed.

Lemma filter_twice {A} (p q : A -> bool) (l : list A) :
  List.filter p (List.filter q l) = List.filter (fun x => p x && q x) l.
Proof.
  induction l as [|x l IH]; simpl; [done|].
  destruct (q x); simpl; [|by rewrite andb_false_r].
  rewrite andb_true_r. destruct (p x); by rewrite IH.
Qed.

Lemma fold_first_seen (l acc : list Z) :
  fold_left (fun acc a => if bool_decide (a ∈ acc) then acc else acc ++ [a]) l acc
  = acc ++ List.filter (fun b => negb (bool_decide (b ∈ acc))) (first_seen l).
Proof.
  revert acc. induction l as [|a l IH]; intros acc; simpl; [by rewrite app_nil_r|].
  destruct (decide (a ∈ acc)) as [Hin|Hnin].
  - rewrite (bool_decide_eq_true_2 _ Hin). simpl. rewrite IH, filter_twice.
    f_equal. apply List.filter_ext. intros b.
    destruct (decide (b ∈ acc)) as [Hb|Hb].
    + by rewrite (bool_decide_eq_true_2 _ Hb).
    + rewrite (bool_decide_eq_false_2 _ Hb). simpl.
      rewrite bool_decide_eq_false_2; [done|]. by intros ->.
  - rewrite (bool_decide_eq_false_2 _ Hnin). simpl.
    rewrite IH, filter_twice, <- app_assoc. simpl. do 2 f_equal.
    apply List.filter_ext. intros b.
    destruct (decide (b = a)) as [->|Hne].
    + rewrite (bool_decide_eq_true_2 (a = a)) by done.
      rewrite andb_false_r. rewrite bool_decide_eq_true_2; [done|].
      apply elem_of_app. right. left.
    + rewrite (bool_decide_eq_false_2 (b = a)) by done. rewrite andb_true_r.
      destruct (decide (b ∈ acc)) as [Hb|Hb].
      * rewrite !bool_decide_eq_true_2; [done..|]. apply elem_of_app. by left.
      * rewrite !bool_decide_eq_false_2; [done..|].
        intros Hin. apply elem_of_app in Hin as [?|Hin]; [done|].
        apply list_elem_of_singleton in Hin. done.
Qed.

(** The keys of [callbacks] stand in the order in which the addresses first
    occur when the listeners' contexts are read in registration order. *)
Lemma callbacks_first_seen_order (ls : list Listener) :
  map fst (collect_callbacks ls) = first_seen (concat (map context ls)).
Proof.
  unfold collect_callbacks. rewrite fold_add_listener_key_order. simpl.
  rewrite fold_first_seen. simpl.
  induction (first_seen (concat (map context ls))) as [|a l IH]; simpl; [done|].
  by rewrite IH.
Qed.

Section AttemptOrder.
Context {K : Type} `{Connection K}.

(** X2: the attempts of a cycle come in blocks of one or more attempts at one
    address, one block per address, and the addresses of the blocks follow the
    order in which the addresses first occur when the listeners' contexts are
    read in registration order: all of them when the cycle returns, a prefix
    of them when it is aborted. *)
Theorem attempts_follow_first_seen_order (hp : HeatPump) (ls : list Listener)
    (w : World K) :
  ∃ blocks,
    attempted (log (_async_update_data hp ls w)) = block_attempts blocks
    ∧ map fst blocks `prefix_of` first_seen (concat (map context ls))
    ∧ (∀ res, outcome (_async_update_data hp ls w) = Ok res ->
              map fst blocks = first_seen (concat (map context ls))).
Proof.
  destruct (cycle_blocks _ _ _ _ _ _ _ (run_cycle hp ls w)) as (blocks & Hatt & Hr).
  exists blocks. split; [exact Hatt|].
  rewrite <- callbacks_first_seen_order.
  destruct (outcome (_async_update_data hp ls w)) as [res|e].
  - split; [by rewrite Hr|]. by intros res' _.
  - destruct Hr as (pre & a & cbs & post & -> & ->).
    split; [|discriminate]. rewrite map_app. simpl.
    exists (map fst post). by rewrite <- app_assoc.
Qed.
End AttemptOrder.

(** X2 with a listener of 20 registered before the listener of 10: the blocks
    of the cycle are one at 20 and then one at 10. *)
Lemma attempts_follow_first_seen_order_witness :
  ∃ blocks,
    attempted (log (_async_update_data pump_10 [L3; L1]
                      (world0 [ReadOk (VInt 5)] [])))
    = block_attempts blocks
    ∧ map fst blocks = [20; 10].
Proof.
  destruct (attempts_follow_first_seen_order pump_10 [L3; L1]
              (world0 [ReadOk (VInt 5)] [])) as (blocks & Hatt & _ & Hall).
  assert (Hres : ∃ res, outcome (_async_update_data pump_10 [L3; L1]
                                   (world0 [ReadOk (VInt 5)] [])) = Ok res)
    by (vm_compute; eexists; reflexivity).
  destruct Hres as [res Hres].
  exists blocks. split; [exact Hatt|].
  rewrite (Hall res Hres). vm_compute. reflexivity.
Defined.

(** ** Retries *)

Lemma reads_app (l1 l2 : list event) : reads (l1 ++ l2) = reads l1 ++ reads l2.
Proof. unfold reads. apply omap_app. Qed.

Lemma reads_timeouts (a : Z) (n : nat) : reads (timeouts a n) = repeat a n.
Proof. unfold reads, timeouts. induction n; simpl; [done|]. by f_equal. Qed.

Lemma reads_calls (a : Z) (cbs : list nat) (s : Cache) : reads (calls a cbs s) = [].
Proof. unfold reads, calls. induction cbs; simpl; done. Qed.

Section RetryRuns.
Context {K : Type} `{Connection K}.

(** After [n] timeouts the retried read goes on with [n] attempts fewer. *)
Lemma retry_loop_after_timeouts (n more : nat) (c : Coil) (w : World K) (k1 : K) :
  transient_run n (connection w) c = Some k1 ->
  (n <= more)%nat ->
  retry_loop more (connection_read_coil c) w
  = (let '(r, w', evs) := retry_loop (more - n) (connection_read_coil c)
                            (Build_World (cache w) k1) in
     (r, w', timeouts (address c) n ++ evs)).
Proof.
  revert more w. induction n as [|n IH]; intros more w Hrun Hle.
  - simpl in Hrun. inversion Hrun; subst. rewrite Nat.sub_0_r. destruct w as [s k].
    simpl. by destruct (retry_loop more (connection_read_coil c) _) as [[r w'] evs].
  - destruct more as [|more]; [lia|]. simpl in Hrun.
    destruct (read_response (connection w) c) as [[v|e] k] eqn:Hresp; [discriminate|].
    destruct e; try discriminate.
    simpl retry_loop. unfold try_except at 1. unfold connection_read_coil at 1.
    rewrite Hresp.
    rewrite (IH more (Build_World (cache w) k) Hrun) by lia. simpl.
    by destruct (retry_loop (more - n) (connection_read_coil c) _) as [[r w'] evs].
Qed.

Lemma retry_loop_value (more : nat) (c : Coil) (w : World K) (v : Val) (k : K) :
  read_response (connection w) c = (ReadOk v, k) ->
  retry_loop more (connection_read_coil c) w
  = (Ok c, Build_World (set_value c v (cache w)) k, [EvRead (address c) (ReadOk v)]).
Proof.
  intros Hresp. destruct more; simpl; unfold try_except, connection_read_coil;
    by rewrite Hresp.
Qed.

Lemma retry_loop_error (more : nat) (c : Coil) (w : World K) (e : exn) (k : K) :
  read_response (connection w) c = (ReadErr e, k) ->
  e ≠ CoilReadException ->
  retry_loop more (connection_read_coil c) w
  = (Raise e, Build_World (cache w) k, [EvRead (address c) (ReadErr e)]).
Proof.
  intros Hresp Hne. destruct more; simpl; unfold try_except, connection_read_coil;
    rewrite Hresp; by destruct e.
Qed.

(** X3: timeouts short of the bound are invisible to the cycle.  When the
    reads of a coil time out fewer than [COIL_READ_RETRIES] times and the next
    read answers a value, the turn of its address writes that value into the
    cache and the result and then calls the address's callbacks, as if the
    first read had answered. *)
Theorem read_recovers_after_timeouts (hp : HeatPump) (a : Z) (cbs : list nat)
    (c : Coil) (n : nat) (v : Val) (res : gmap Z Coil) (w : World K) (k1 k2 : K) :
  find_coil hp a = Some c ->
  (n < COIL_READ_RETRIES)%nat ->
  transient_run n (connection w) c = Some k1 ->
  read_response k1 c = (ReadOk v, k2) ->
  update_address hp (a, cbs) res w
  = (Ok (<[a := c]> res),
     Build_World (set_data a c (set_value c v (cache w))) k2,
     timeouts a n ++ EvRead a (ReadOk v)
       :: calls a cbs (set_data a c (set_value c v (cache w)))).
Proof.
  intros Hfind Hn Hrun Hresp. pose proof (find_coil_address _ _ _ Hfind) as Haddr.
  unfold COIL_READ_RETRIES in Hn.
  unfold update_address. simpl fst. simpl snd. unfold bind at 1.
  unfold fetch_address, try_except, get_coil_by_address. fold (find_coil hp a).
  rewrite Hfind. unfold bind at 1. unfold ret at 1. unfold bind at 1.
  unfold read_coil, retry, COIL_READ_RETRIES. simpl Nat.pred.
  rewrite (retry_loop_after_timeouts n 4 c w k1 Hrun) by lia.
  rewrite (retry_loop_value _ c (Build_World (cache w) k1) v k2 Hresp).
  rewrite Haddr. unfold bind at 1. unfold modify_cache, ret. simpl.
  unfold bind. rewrite for_each_calls. simpl.
  by rewrite !app_nil_r, <- app_assoc.
Qed.
End RetryRuns.

(** X3 with two timeouts before the value 5. *)
Lemma read_recovers_after_timeouts_witness :
  find_coil pump_10 10 = Some coil10
  ∧ (2 < COIL_READ_RETRIES)%nat
  ∧ update_address pump_10 (10, [1%nat]) ∅
      (world0 [ReadErr CoilReadException; ReadErr CoilReadException; ReadOk (VInt 5)] [])
    = (Ok {[ 10 := coil10 ]}, Build_World cache_10_5 idle,
       [EvRead 10 (ReadErr CoilReadException); EvRead 10 (ReadErr CoilReadException);
        EvRead 10 (ReadOk (VInt 5)); EvNotify (Some 10) 1 cache_10_5]).
Proof.
  assert (Hfind : find_coil pump_10 10 = Some coil10) by reflexivity.
  assert (Hn : (2 < COIL_READ_RETRIES)%nat) by (unfold COIL_READ_RETRIES; lia).
  assert (Hrun : transient_run 2
                   (connection (world0 [ReadErr CoilReadException;
                                        ReadErr CoilReadException;
                                        ReadOk (VInt 5)] [])) coil10
                 = Some {| read_queue := [ReadOk (VInt 5)]; write_queue := [] |})
    by (vm_compute; reflexivity).
  assert (Hresp : read_response {| read_queue := [ReadOk (VInt 5)]; write_queue := [] |}
                    coil10 = (ReadOk (VInt 5), idle)) by (vm_compute; reflexivity).
  split; [exact Hfind|]. split; [exact Hn|].
  rewrite (read_recovers_after_timeouts pump_10 10 [1%nat] coil10 2 (VInt 5) ∅
             _ _ idle Hfind Hn Hrun Hresp).
  vm_compute. reflexivity.
Defined.

Section FatalAndBound.
Context {K : Type} `{Connection K}.

(** X4: an error of a read that is neither a timeout nor one of the errors
    the cycle handles is not retried and not wrapped: the cycle raises that
    very error after this one read, attempts no later address, and leaves the
    cache as the earlier addresses left it. *)
Theorem fatal_error_propagates (hp : HeatPump) (ls : list Listener) (w : World K)
    (pre post : list (Z * list nat)) (a : Z) (cbs : list nat) (c : Coil)
    (n : nat) (e : exn) (res1 : gmap Z Coil) (w1 : World K) (evs1 : list event)
    (k1 k2 : K) :
  collect_callbacks ls = pre ++ (a, cbs) :: post ->
  update_loop hp pre ∅ w = (Ok res1, w1, evs1) ->
  find_coil hp a = Some c ->
  (n < COIL_READ_RETRIES)%nat ->
  transient_run n (connection w1) c = Some k1 ->
  read_response k1 c = (ReadErr e, k2) ->
  is_fatal e = true ->
  _async_update_data hp ls w
  = (Raise e, Build_World (cache w1) k2,
     evs1 ++ timeouts a n ++ [EvRead a (ReadErr e)]).
Proof.
  intros Hitems Hpre Hfind Hn Hrun Hresp Hfatal.
  pose proof (find_coil_address _ _ _ Hfind) as Haddr.
  unfold COIL_READ_RETRIES in Hn.
  unfold _async_update_data. rewrite Hitems, update_loop_app.
  unfold bind at 1. rewrite Hpre. simpl update_loop. unfold bind at 1.
  unfold update_address. simpl fst. simpl snd. unfold bind at 1.
  unfold fetch_address, try_except, get_coil_by_address. fold (find_coil hp a).
  rewrite Hfind. unfold bind at 1. unfold ret at 1. unfold bind at 1.
  unfold read_coil, retry, COIL_READ_RETRIES. simpl Nat.pred.
  rewrite (retry_loop_after_timeouts n 4 c w1 k1 Hrun) by lia.
  rewrite (retry_loop_error _ c (Build_World (cache w1) k1) e k2 Hresp)
    by (intros ->; discriminate).
  rewrite Haddr. destruct e; try discriminate; unfold raise; simpl;
    by rewrite !app_nil_r.
Qed.

(** The reads of one turn: at most [COIL_READ_RETRIES], all of its address. *)
Lemma update_address_reads (hp : HeatPump) (a : Z) (cbs : list nat)
    (res : gmap Z Coil) (w : World K) r w' evs :
  update_address hp (a, cbs) res w = (r, w', evs) ->
  ∃ k, (k <= COIL_READ_RETRIES)%nat ∧ reads evs = repeat a k.
Proof.
  unfold update_address. simpl fst. simpl snd. unfold bind at 1.
  unfold fetch_address, try_except, get_coil_by_address. fold (find_coil hp a).
  destruct (find_coil hp a) as [c|] eqn:Hfind.
  - pose proof (find_coil_address _ _ _ Hfind) as Haddr. subst a.
    unfold bind at 1. unfold ret at 1. unfold bind at 1.
    unfold read_coil, retry, COIL_READ_RETRIES. simpl Nat.pred.
    destruct (retry_loop 4 (connection_read_coil c) w) as [[r1 w1] evs1] eqn:Hread.
    apply retry_loop_read_spec in Hread.
    destruct Hread as [(n & v & Hle & -> & Hc & ->)
                      |[(n & e & Hle & Hne & -> & Hc & ->)|(-> & Hc & ->)]].
    + unfold bind at 1. unfold modify_cache, ret. simpl.
      unfold bind. rewrite for_each_calls. simpl. intros Heq. inversion Heq; subst.
      exists (n + 1)%nat. split; [lia|].
      fold (calls (address c) cbs (set_data (address c) c (cache w1))).
      rewrite !app_nil_r, !reads_app, reads_timeouts, reads_calls, repeat_app.
      by rewrite app_nil_r.
    + assert (Hrs : reads (timeouts (address c) n ++ [EvRead (address c) (ReadErr e)])
                    = repeat (address c) (n + 1)).
      { by rewrite reads_app, reads_timeouts, repeat_app. }
      destruct e; try congruence; unfold raise, bind, emit, ret; simpl;
        rewrite ?for_each_calls; simpl;
        intros Heq; inversion Heq; subst; exists (n + 1)%nat; (split; [lia|]);
        rewrite ?app_nil_r; try exact Hrs.
      fold (calls (address c) cbs (cache w')).
      by rewrite !reads_app, <- reads_app, Hrs, reads_calls, !app_nil_r.
    + unfold raise. simpl. intros Heq. inversion Heq; subst.
      exists 5%nat. split; [lia|]. done.
  - unfold raise, bind, emit, ret. simpl. rewrite for_each_calls. simpl.
    intros Heq. inversion Heq; subst. exists 0%nat. split; [lia|].
    fold (calls a cbs (cache w')).
    change (EvSkip a :: ?l) with ([EvSkip a] ++ l).
    by rewrite app_nil_r, reads_app, reads_calls.
Qed.

Lemma read_count_app (a : Z) (l1 l2 : list event) :
  read_count a (l1 ++ l2) = (read_count a l1 + read_count a l2)%nat.
Proof. unfold read_count. by rewrite reads_app, List.filter_app, length_app. Qed.

Lemma read_count_repeat (a b : Z) (k : nat) (evs : list event) :
  reads evs = repeat b k ->
  read_count a evs = if decide (b = a) then k else 0%nat.
Proof.
  unfold read_count. intros ->. induction k as [|k IH]; simpl.
  - by destruct (decide (b = a)).
  - destruct (decide (b = a)) as [->|Hne].
    + rewrite bool_decide_eq_true_2 by done. simpl. by rewrite IH.
    + by rewrite bool_decide_eq_false_2.
Qed.

Lemma read_count_absent (a : Z) (evs : list event) :
  (∀ ev, ev ∈ evs -> event_address ev ≠ Some a) -> read_count a evs = 0%nat.
Proof.
  unfold read_count, reads. induction evs as [|ev evs IH]; intros Habs; [done|].
  assert (Hrest : ∀ ev', ev' ∈ evs -> event_address ev' ≠ Some a)
    by (intros ev' Hin; apply Habs; by right).
  specialize (Habs ev (list_elem_of_here _ _)).
  destruct ev as [b o| | |]; simpl; try by apply IH.
  rewrite bool_decide_eq_false_2; [by apply IH|]. simpl in Habs. congruence.
Qed.

Lemma update_loop_read_count (hp : HeatPump) (items : list (Z * list nat))
    (res : gmap Z Coil) (w : World K) r w' evs (a : Z) :
  NoDup (map fst items) ->
  update_loop hp items res w = (r, w', evs) ->
  (read_count a evs <= COIL_READ_RETRIES)%nat.
Proof.
  revert res w r w' evs.
  induction items as [|[b cbs] rest IH]; intros res w r w' evs Hnd Hrun.
  - inversion Hrun; subst. unfold read_count. simpl. lia.
  - simpl in Hnd. apply NoDup_cons in Hnd as [Hnotin Hnd].
    simpl in Hrun. unfold bind at 1 in Hrun.
    destruct (update_address hp (b, cbs) res w) as [[[res1|e] w1] evs1] eqn:Hturn.
    + destruct (update_loop hp rest res1 w1) as [[r2 w2] evs2] eqn:Hrest.
      inversion Hrun; subst.
      apply update_address_reads in Hturn as (k & Hk & Hreads).
      rewrite read_count_app, (read_count_repeat a b k evs1 Hreads).
      destruct (decide (b = a)) as [->|Hne].
      * rewrite (read_count_absent a evs2); [lia|].
        eapply cycle_absent; [by eapply update_loop_cycle|done].
      * specialize (IH _ _ _ _ _ Hnd Hrest). lia.
    + inversion Hrun; subst.
      apply update_address_reads in Hturn as (k & Hk & Hreads).
      rewrite (read_count_repeat a b k evs Hreads). destruct (decide (b = a)); lia.
Qed.

(** X5: whatever the connection answers, a cycle reads no address more than
    [COIL_READ_RETRIES] = 5 times. *)
Theorem reads_per_address_bounded (hp : HeatPump) (ls : list Listener)
    (w : World K) (a : Z) :
  (read_count a (log (_async_update_data hp ls w)) <= COIL_READ_RETRIES)%nat.
Proof.
  unfold _async_update_data, log.
  destruct (update_loop hp (collect_callbacks ls) ∅ w) as [[r w'] evs] eqn:Hrun.
  simpl. eapply update_loop_read_count; [apply collect_callbacks_NoDup|exact Hrun].
Qed.
End FatalAndBound.

(** X4 on three listeners: 10 is read, the read of 20 times out once and then
    raises a [ValueError], which leaves the cycle as it is. *)
Lemma fatal_error_propagates_witness :
  is_fatal (OtherException "ValueError") = true
  ∧ _async_update_data pump_three [L1; L3; L4]
      (world0 [ReadOk (VInt 5); ReadErr CoilReadException;
               ReadErr (OtherException "ValueError")] [])
    = (Raise (OtherException "ValueError"), Build_World cache_10_5 idle,
       [EvRead 10 (ReadOk (VInt 5)); EvNotify (Some 10) 1 cache_10_5;
        EvRead 20 (ReadErr CoilReadException);
        EvRead 20 (ReadErr (OtherException "ValueError"))]).
Proof.
  split; [reflexivity|].
  set (w := world0 [ReadOk (VInt 5); ReadErr CoilReadException;
                    ReadErr (OtherException "ValueError")] []).
  assert (Hitems : collect_callbacks [L1; L3; L4]
                   = [(10, [1%nat])] ++ (20, [3%nat]) :: [(30, [4%nat])])
    by (vm_compute; reflexivity).
  assert (Hpre : update_loop pump_three [(10, [1%nat])] ∅ w
                 = (Ok {[ 10 := coil10 ]},
                    Build_World cache_10_5
                      {| read_queue := [ReadErr CoilReadException;
                                        ReadErr (OtherException "ValueError")];
                         write_queue := [] |},
                    [EvRead 10 (ReadOk (VInt 5)); EvNotify (Some 10) 1 cache_10_5]))
    by (vm_compute; reflexivity).
  assert (Hfind : find_coil pump_three 20 = Some coil20) by reflexivity.
  assert (Hn : (1 < COIL_READ_RETRIES)%nat) by (unfold COIL_READ_RETRIES; lia).
  assert (Hrun : transient_run 1
                   {| read_queue := [ReadErr CoilReadException;
                                     ReadErr (OtherException "ValueError")];
                      write_queue := [] |} coil20
                 = Some {| read_queue := [ReadErr (OtherException "ValueError")];
                           write_queue := [] |}) by (vm_compute; reflexivity).
  assert (Hresp : read_response
                    {| read_queue := [ReadErr (OtherException "ValueError")];
                       write_queue := [] |} coil20
                  = (ReadErr (OtherException "ValueError"), idle))
    by (vm_compute; reflexivity).
  rewrite (fatal_error_propagates pump_three [L1; L3; L4] w _ _ 20 _ coil20 1 _ _ _ _ _ _
             Hitems Hpre Hfind Hn Hrun Hresp eq_refl).
  reflexivity.
Defined.

(** ** What a cycle does to the cache *)

Lemma updatedb_app (l1 l2 : list event) (a : Z) :
  updatedb (l1 ++ l2) a = updatedb l1 a || updatedb l2 a.
Proof. unfold updatedb. apply existsb_app. Qed.

Lemma updatedb_requested hp items res s r s' evs a :
  cycle hp items res s r s' evs -> updatedb evs a = true -> a ∈ map fst items.
Proof.
  intros Hcyc Hup. apply updatedb_elem in Hup as [v Hin].
  destruct (cycle_mentions _ _ _ _ _ _ _ Hcyc _ Hin) as (b & Hb & Hkey).
  simpl in Hb. congruence.
Qed.

(** The values of the coil objects a cycle does not update stay. *)
Lemma cycle_values hp items res s r s' evs (i : nat) :
  cycle hp items res s r s' evs ->
  (∀ a c, updatedb evs a = true -> find_coil hp a = Some c -> coil_id c ≠ i) ->
  values s' !! i = values s !! i.
Proof.
  induction 1 as [res s|b cbs rest res s c n v r s' evs Hfind Hn Hcyc IH
                 |b cbs rest res s rs r s' evs Hrs Hcyc IH
                 |b cbs rest res s e rs Hrs Hne]; intros Hother.
  - reflexivity.
  - rewrite IH.
    + simpl. apply lookup_insert_ne. apply (Hother b c); [|done].
      rewrite updatedb_app. change (EvRead b (ReadOk v) :: ?l)
        with ([EvRead b (ReadOk v)] ++ l). rewrite updatedb_app. simpl.
      rewrite bool_decide_eq_true_2 by done. by rewrite orb_true_r.
    + intros a c' Hup. apply Hother.
      rewrite updatedb_app. change (EvRead b (ReadOk v) :: ?l)
        with ([EvRead b (ReadOk v)] ++ l). rewrite !updatedb_app, Hup.
      by rewrite !orb_true_r.
  - apply IH. intros a c' Hup. apply Hother.
    rewrite updatedb_app. change (EvSkip b :: ?l) with ([EvSkip b] ++ l).
    rewrite !updatedb_app, Hup. by rewrite !orb_true_r.
  - reflexivity.
Qed.

(** The entry of an address that is not a key of [callbacks] stays. *)
Lemma cycle_unrequested hp items res s r s' evs a :
  cycle hp items res s r s' evs -> a ∉ map fst items -> data s' !! a = data s !! a.
Proof.
  intros Hcyc Hnot. destruct (cycle_data _ _ _ _ _ _ _ Hcyc a) as [Hdata _].
  rewrite Hdata. destruct (updatedb evs a) eqn:Hup; [|done].
  exfalso. apply Hnot. by eapply updatedb_requested.
Qed.

Section CacheAfterCycle.
Context {K : Type} `{Connection K}.

(** X6: a cycle that returns leaves as cache dict the returned dict laid over
    the dict it found; and whether it returns or raises, a cycle removes no
    entry and leaves the entry of an address no listener requests as it
    was. *)
Theorem refresh_cache_is_result_over_old (hp : HeatPump) (ls : list Listener)
    (w : World K) :
  (∀ res, outcome (_async_update_data hp ls w) = Ok res ->
     data (cache (final (_async_update_data hp ls w))) = res ∪ data (cache w))
  ∧ (∀ a, is_Some (data (cache w) !! a) ->
          is_Some (data (cache (final (_async_update_data hp ls w))) !! a))
  ∧ (∀ a, ¬ requested ls a ->
          data (cache (final (_async_update_data hp ls w))) !! a
          = data (cache w) !! a).
Proof.
  pose proof (run_cycle hp ls w) as Hcyc.
  set (run := _async_update_data hp ls w) in *.
  assert (Hfound : ∀ a, updatedb (log run) a = true -> is_Some (find_coil hp a)).
  { intros a Hup.
    pose proof (cycle_updated_cached _ _ _ _ _ _ _ a Hcyc Hup) as Hsome.
    destruct (cycle_data _ _ _ _ _ _ _ Hcyc a) as [Hdata _].
    by rewrite Hdata, Hup in Hsome. }
  repeat split.
  - intros res Hok. apply map_eq. intros a.
    destruct (cycle_data _ _ _ _ _ _ _ Hcyc a) as [Hdata Hres].
    rewrite lookup_union, Hdata, (Hres res Hok), lookup_empty.
    destruct (updatedb (log run) a) eqn:Hup.
    + destruct (Hfound a Hup) as [c ->]. by destruct (data (cache w) !! a).
    + by destruct (data (cache w) !! a).
  - intros a Hsome. destruct (cycle_data _ _ _ _ _ _ _ Hcyc a) as [Hdata _].
    rewrite Hdata. destruct (updatedb (log run) a) eqn:Hup; [by apply Hfound|done].
  - intros a Hnot. eapply cycle_unrequested; [exact Hcyc|].
    intros Hkey. by apply Hnot, collect_callbacks_keys.
Qed.

(** X7: a cycle leaves the cached value of an address no listener requests
    as it was, provided the cached coil is not the object of a requested
    address. *)
Theorem unrequested_value_kept (hp : HeatPump) (ls : list Listener) (w : World K)
    (coil c0 : Coil) :
  data (cache w) !! address coil = Some c0 ->
  ¬ requested ls (address coil) ->
  (∀ c, c ∈ hp -> requested ls (address c) -> coil_id c ≠ coil_id c0) ->
  get_coil_value (cache (final (_async_update_data hp ls w))) coil
  = get_coil_value (cache w) coil.
Proof.
  intros Hdata Hnot Hids.
  pose proof (run_cycle hp ls w) as Hcyc.
  assert (Hkeep : data (cache (final (_async_update_data hp ls w))) !! address coil
                  = data (cache w) !! address coil).
  { eapply cycle_unrequested; [exact Hcyc|].
    intros Hkey. by apply Hnot, collect_callbacks_keys. }
  unfold get_coil_value, coil_value. rewrite Hkeep, Hdata.
  eapply cycle_values; [exact Hcyc|].
  intros a c Hup Hfind. apply Hids.
  - unfold find_coil in Hfind. apply find_some in Hfind as [Hin _].
    by apply list_elem_of_In.
  - rewrite (find_coil_address _ _ _ Hfind). apply collect_callbacks_keys.
    by eapply updatedb_requested.
Qed.
End CacheAfterCycle.

(** X6 on the specification's scenario, started with address 30 in the
    cache: the cache ends with 10 and 30. *)
Lemma refresh_cache_is_result_over_old_witness :
  outcome (_async_update_data pump_10 [L1; L2]
             (Build_World {| data := {[ 30 := coil30 ]}; values := ∅ |}
                {| read_queue := [ReadOk (VInt 5)]; write_queue := [] |}))
  = Ok {[ 10 := coil10 ]}
  ∧ data (cache (final (_async_update_data pump_10 [L1; L2]
                          (Build_World {| data := {[ 30 := coil30 ]}; values := ∅ |}
                             {| read_queue := [ReadOk (VInt 5)]; write_queue := [] |}))))
    = {[ 10 := coil10 ]} ∪ {[ 30 := coil30 ]}.
Proof.
  assert (Hok : outcome (_async_update_data pump_10 [L1; L2]
                  (Build_World {| data := {[ 30 := coil30 ]}; values := ∅ |}
                     {| read_queue := [ReadOk (VInt 5)]; write_queue := [] |}))
                = Ok {[ 10 := coil10 ]}) by (vm_compute; reflexivity).
  split; [exact Hok|].
  exact (proj1 (refresh_cache_is_result_over_old pump_10 [L1; L2] _) _ Hok).
Defined.

(** X7 with coil 20 cached with value 9 and one listener on address 10. *)
Lemma unrequested_value_kept_witness :
  get_coil_value
    (cache (final (_async_update_data pump_both [L1]
                     (Build_World {| data := {[ 20 := coil20 ]};
                                     values := {[ 2%nat := VInt 9 ]} |}
                        {| read_queue := [ReadOk (VInt 5)]; write_queue := [] |}))))
    coil20
  = Some (VInt 9).
Proof.
  rewrite (unrequested_value_kept pump_both [L1] _ coil20 coil20).
  - vm_compute. reflexivity.
  - vm_compute. reflexivity.
  - intros (l & Hl & Ha). apply list_elem_of_singleton in Hl as ->.
    apply list_elem_of_singleton in Ha. discriminate.
  - intros c Hc (l & Hl & Ha). apply list_elem_of_singleton in Hl as ->.
    apply list_elem_of_singleton in Ha.
    apply elem_of_cons in Hc as [->|Hc]; [discriminate|].
    apply list_elem_of_singleton in Hc as ->. discriminate.
Defined.

(** ** Invariants of the cache, and the write path *)

Lemma notify_in_fanout (ev : event) (ls : list Listener) (s : Cache) o cb seen :
  (∀ o' cb' seen', ev ≠ EvNotify o' cb' seen') ->
  EvNotify o cb seen
    ∈ ev :: map (fun l => EvNotify None (update_callback l) s) ls ->
  seen = s.
Proof.
  intros Hev Hin. apply elem_of_cons in Hin as [Heq|Hin].
  - exfalso. by apply (Hev o cb seen).
  - change (map ?f ls) with (f <$> ls) in Hin.
    apply list_elem_of_fmap in Hin as (l & Heq & _). by inversion Heq.
Qed.

Section CacheInvariant.
Context {K : Type} `{Connection K} `{CoilSetter}.

(** X8: refresh cycles and writes keep every cache entry under its coil's own
    address, which is where [get_coil_value] and the entities look it up. *)
Theorem keyed_by_address_kept (hp : HeatPump) (ls : list Listener) (c : Coil)
    (v : Val) (w : World K) :
  keyed_by_address (cache w) ->
  keyed_by_address (cache (final (_async_update_data hp ls w)))
  ∧ keyed_by_address (cache (final (async_write_coil ls c v w))).
Proof.
  intros Hkeyed. split.
  - intros a c' Hdata.
    destruct (cycle_data _ _ _ _ _ _ _ (run_cycle hp ls w) a) as [Hfinal _].
    rewrite Hfinal in Hdata.
    destruct (updatedb _ a); [by apply find_coil_address in Hdata|by apply Hkeyed].
  - rewrite async_write_coil_run.
    destruct (coil_setter c v) as [e|v']; [exact Hkeyed|].
    destruct (write_response (connection w) c (Some v')) as [[|e] k];
      [destruct (bool_decide (data (cache w) = ∅))|];
      intros a c' Hdata; unfold final in Hdata; simpl in Hdata;
      try by apply Hkeyed.
    destruct (decide (address c = a)) as [<-|Hne].
    + rewrite lookup_insert_eq in Hdata. by inversion Hdata.
    + rewrite lookup_insert_ne in Hdata by done. by apply Hkeyed.
Qed.

(** X9: a write whose value the coil accepts and that the connection
    accepts, made on a cache that is not empty, puts the coil under its address
    and leaves the other entries; every callback it calls reads for that coil
    the value the coil stored; and the write asks the connection once, with
    that stored value, and reads nothing.  A value the coil refuses raises the
    setter's error before the connection is asked, and nothing changes. *)
Theorem write_updates_before_fanout (ls : list Listener) (c : Coil) (v : Val)
    (w : World K) :
  (∀ v' k', coil_setter c v = inr v' ->
     write_response (connection w) c (Some v') = (WriteOk, k') ->
     data (cache w) ≠ ∅ ->
     data (cache (final (async_write_coil ls c v w)))
     = <[address c := c]> (data (cache w))
     ∧ (∀ o cb seen, EvNotify o cb seen ∈ log (async_write_coil ls c v w) ->
                     get_coil_value seen c = Some v')
     ∧ log (async_write_coil ls c v w)
       = EvWrite (address c) (Some v') WriteOk
           :: map (fun l => EvNotify None (update_callback l)
                              (cache (final (async_write_coil ls c v w)))) ls
     ∧ writes (log (async_write_coil ls c v w)) = [address c]
     ∧ reads (log (async_write_coil ls c v w)) = [])
  ∧ (∀ e, coil_setter c v = inl e -> async_write_coil ls c v w = (Raise e, w, [])).
Proof.
  split; [|by intros e Hset; rewrite async_write_coil_run, Hset].
  intros v' k' Hset Hresp Hfull. rewrite async_write_coil_run, Hset, Hresp.
  rewrite bool_decide_eq_false_2 by done. unfold final, log. cbn [fst snd].
  split; [done|]. split; [|split; [done|split]].
  - intros o cb seen Hin. apply notify_in_fanout in Hin as ->; [|discriminate].
    unfold get_coil_value, coil_value. simpl. by rewrite !lookup_insert_eq.
  - unfold writes. simpl. f_equal. induction ls; simpl; done.
  - unfold reads. simpl. induction ls; simpl; done.
Qed.
End CacheInvariant.

(** X8 on the cache that holds coil 10. *)
Lemma keyed_by_address_kept_witness :
  keyed_by_address cache_10_5
  ∧ keyed_by_address
      (cache (final (_async_update_data pump_both [L2]
                       (Build_World cache_10_5
                          {| read_queue := [ReadOk (VInt 6); ReadOk (VInt 7)];
                             write_queue := [] |})))).
Proof.
  assert (Hkeyed : keyed_by_address cache_10_5).
  { intros a c Hdata. unfold cache_10_5 in Hdata. simpl in Hdata.
    apply lookup_singleton_Some in Hdata as [<- <-]. reflexivity. }
  split; [exact Hkeyed|].
  exact (proj1 (keyed_by_address_kept pump_both [L2] coil10 (VInt 0)
                  (Build_World cache_10_5
                     {| read_queue := [ReadOk (VInt 6); ReadOk (VInt 7)];
                        write_queue := [] |}) Hkeyed)).
Defined.

(** X9 with listeners on 10 and on 20 and a write of 7 to coil 10. *)
Lemma write_updates_before_fanout_witness :
  data (cache (final (async_write_coil [L1; L3] coil10 (VInt 7)
                        (Build_World cache_10_5 (write_only WriteOk)))))
  = <[ 10 := coil10 ]> (data cache_10_5)
  ∧ writes (log (async_write_coil [L1; L3] coil10 (VInt 7)
                   (Build_World cache_10_5 (write_only WriteOk)))) = [10].
Proof.
  assert (Hresp : write_response
                    (connection (Build_World cache_10_5 (write_only WriteOk)))
                    coil10 (Some (VInt 7)) = (WriteOk, idle))
    by (vm_compute; reflexivity).
  assert (Hfull : data (cache (Build_World cache_10_5 (write_only WriteOk))) ≠ ∅).
  { intros Heq. apply (f_equal (fun m : gmap Z Coil => m !! 10)) in Heq.
    vm_compute in Heq. discriminate. }
  destruct (proj1 (write_updates_before_fanout [L1; L3] coil10 (VInt 7)
                     (Build_World cache_10_5 (write_only WriteOk)))
              (VInt 7) idle eq_refl Hresp Hfull)
    as (Hdata & _ & _ & Hwrites & _).
  split; [exact Hdata|exact Hwrites].
Defined.

(** ** Entities and the cycle *)

(** What a callback called on account of [a] finds in the cache dict for [a]:
    the coil of [a] when the cycle updated [a], and what the cycle found
    otherwise. *)
Lemma cycle_seen hp items res s r s' evs :
  cycle hp items res s r s' evs ->
  NoDup (map fst items) ->
  ∀ a cb seen, EvNotify (Some a) cb seen ∈ evs ->
    data seen !! a = if updatedb evs a then find_coil hp a else data s !! a.
Proof.
  induction 1 as [res s|b cbs rest res s c n v r s' evs Hfind Hn Hcyc IH
                 |b cbs rest res s rs r s' evs Hrs Hcyc IH
                 |b cbs rest res s e rs Hrs Hne]; intros Hnd a cb seen Hcall.
  - inversion Hcall.
  - simpl in Hnd. apply NoDup_cons in Hnd as [Hnotin Hnd].
    rewrite updatedb_app. change (EvRead b (ReadOk v) :: ?l)
      with ([EvRead b (ReadOk v)] ++ l). rewrite !updatedb_app.
    rewrite (updatedb_failed a b) by apply timeouts_failed.
    rewrite updatedb_calls. simpl.
    rewrite elem_of_app, elem_of_cons, elem_of_app in Hcall.
    destruct Hcall as [Hcall|[Hcall|[Hcall|Hcall]]].
    + apply (proj1 (Forall_forall _ _) (timeouts_failed b n)) in Hcall as [? ?].
      discriminate.
    + discriminate.
    + unfold calls in Hcall. apply list_elem_of_fmap in Hcall as (cb' & Heq & _).
      inversion Heq; subst a cb seen.
      rewrite bool_decide_eq_true_2 by done. simpl. by rewrite lookup_insert_eq.
    + destruct (cycle_mentions _ _ _ _ _ _ _ Hcyc _ Hcall) as (a' & Ha' & Hkey).
      simpl in Ha'. inversion Ha'; subst a'.
      assert (b ≠ a) by (intros ->; contradiction).
      rewrite bool_decide_eq_false_2 by done. simpl.
      rewrite (IH Hnd a cb seen Hcall). simpl. by rewrite lookup_insert_ne.
  - simpl in Hnd. apply NoDup_cons in Hnd as [Hnotin Hnd].
    rewrite updatedb_app. change (EvSkip b :: ?l) with ([EvSkip b] ++ l).
    rewrite !updatedb_app. rewrite (updatedb_failed a b) by assumption.
    rewrite updatedb_calls. simpl.
    rewrite elem_of_app, elem_of_cons, elem_of_app in Hcall.
    destruct Hcall as [Hcall|[Hcall|[Hcall|Hcall]]].
    + apply (proj1 (Forall_forall _ _) Hrs) in Hcall as [? ?]. discriminate.
    + discriminate.
    + unfold calls in Hcall. apply list_elem_of_fmap in Hcall as (cb' & Heq & _).
      inversion Heq; subst a cb seen.
      destruct (updatedb evs b) eqn:Hup; [|done].
      exfalso. apply Hnotin. by eapply updatedb_requested.
    + by apply (IH Hnd a cb seen).
  - apply (proj1 (Forall_forall _ _) Hrs) in Hcall as [? ?]. discriminate.
Qed.

Lemma occurrences_callbacks_for_positive (l : Listener) (a : Z) (ls : list Listener) :
  l ∈ ls -> a ∈ context l ->
  (0 < occurrences (update_callback l) (callbacks_for a ls))%nat.
Proof.
  intros Hl Ha. unfold callbacks_for.
  induction ls as [|l' ls IH]; [inversion Hl|]. simpl. rewrite occurrences_app.
  apply elem_of_cons in Hl as [<-|Hl]; [|specialize (IH Hl); lia].
  rewrite occurrences_same.
  assert (Hin : In a (List.filter (fun a' => bool_decide (a' = a)) (context l))).
  { apply filter_In. split; [by apply list_elem_of_In|by apply bool_decide_eq_true]. }
  destruct (List.filter _ (context l)); [inversion Hin|simpl; lia].
Qed.

Lemma notifications_for_witness (a : Z) (cb : nat) (evs : list event) :
  (0 < notifications_for a cb evs)%nat -> ∃ seen, EvNotify (Some a) cb seen ∈ evs.
Proof.
  unfold notifications_for. induction evs as [|ev evs IH]; simpl; [lia|].
  destruct (is_notify_for a cb ev) eqn:Hev.
  - intros _. destruct ev as [| | |[a'|] cb' seen]; simpl in Hev; try discriminate.
    apply andb_true_iff in Hev as [Ha Hcb].
    apply bool_decide_eq_true in Ha as ->. apply bool_decide_eq_true in Hcb as ->.
    exists seen. left.
  - intros Hpos. destruct (IH Hpos) as [seen Hin]. exists seen. by right.
Qed.

Lemma deliver_app (cb : nat) (l1 l2 : list event) (e : CoilEntity) :
  deliver cb (l1 ++ l2) e = deliver cb l2 (deliver cb l1 e).
Proof. unfold deliver. apply fold_left_app. Qed.

(** An entity that is shown the same coil for its address at every call holds
    that coil once it has been called. *)
Lemma deliver_adopts (cb : nat) (evs : list event) (e : CoilEntity) (c : Coil) :
  address c = address (_coil e) ->
  (∀ o seen, EvNotify o cb seen ∈ evs -> data seen !! address (_coil e) = Some c) ->
  deliver cb evs e = e ∨ _coil (deliver cb evs e) = c.
Proof.
  intros Haddr. revert e Haddr.
  induction evs as [|ev evs IH]; intros e Haddr Hseen; [by left|].
  change (ev :: evs) with ([ev] ++ evs). rewrite deliver_app.
  assert (Hrest : ∀ o seen, EvNotify o cb seen ∈ evs ->
                            data seen !! address (_coil e) = Some c).
  { intros o seen Hin. apply (Hseen o seen). by right. }
  destruct ev as [| | |o cb' seen]; try (by apply IH).
  unfold deliver at 2. simpl.
  destruct (decide (cb' = cb)) as [->|Hne]; [|by apply IH].
  unfold _handle_coordinator_update.
  rewrite (Hseen o seen (list_elem_of_here _ _)).
  right. destruct (IH {| _coil := c |}) as [-> | ->]; try done.
  simpl. by rewrite Haddr.
Qed.

Lemma deliver_called (cb : nat) (evs : list event) (e : CoilEntity) (c : Coil) :
  address c = address (_coil e) ->
  (∀ o seen, EvNotify o cb seen ∈ evs -> data seen !! address (_coil e) = Some c) ->
  (∃ o seen, EvNotify o cb seen ∈ evs) ->
  _coil (deliver cb evs e) = c.
Proof.
  intros Haddr. revert e Haddr.
  induction evs as [|ev evs IH]; intros e Haddr Hseen (o & seen & Hin);
    [inversion Hin|].
  change (ev :: evs) with ([ev] ++ evs). rewrite deliver_app.
  assert (Hrest : ∀ o seen, EvNotify o cb seen ∈ evs ->
                            data seen !! address (_coil e) = Some c).
  { intros o' seen' Hin'. apply (Hseen o' seen'). by right. }
  assert (Hcalled : ∀ o' cb' seen', ev = EvNotify o' cb' seen' -> cb' = cb ->
            _coil (deliver cb evs (deliver cb [ev] e)) = c).
  { intros o' cb' seen' -> ->. unfold deliver at 2. simpl.
    rewrite decide_True by done. unfold _handle_coordinator_update.
    rewrite (Hseen o' seen' (list_elem_of_here _ _)).
    destruct (deliver_adopts cb evs {| _coil := c |} c) as [-> | ->]; try done.
    simpl. by rewrite Haddr. }
  apply elem_of_cons in Hin as [<-|Hin]; [by eapply Hcalled|].
  destruct ev as [| | |o' cb' seen']; [apply IH; eauto..|].
  destruct (decide (cb' = cb)) as [->|Hne]; [exact (Hcalled _ _ _ eq_refl eq_refl)|].
  unfold deliver at 2. simpl. rewrite decide_False by done. apply IH; eauto.
Qed.

(** An entity that is shown no coil for its address stays as it is. *)
Lemma deliver_uncached (cb : nat) (evs : list event) (e : CoilEntity) :
  (∀ o seen, EvNotify o cb seen ∈ evs -> data seen !! address (_coil e) = None) ->
  deliver cb evs e = e.
Proof.
  induction evs as [|ev evs IH]; intros Hseen; [done|].
  change (ev :: evs) with ([ev] ++ evs). rewrite deliver_app.
  assert (Hhead : deliver cb [ev] e = e).
  { destruct ev as [| | |o cb' seen]; try done. unfold deliver. simpl.
    destruct (decide (cb' = cb)) as [->|Hne]; [|done].
    unfold _handle_coordinator_update.
    by rewrite (Hseen o seen (list_elem_of_here _ _)). }
  rewrite Hhead. apply IH. intros o seen Hin. apply (Hseen o seen). by right.
Qed.

Lemma updatedb_resolved (evs : list event) (a : Z) :
  updatedb evs a = true -> resolvedb evs a = true.
Proof.
  unfold updatedb, resolvedb. induction evs as [|ev evs IH]; simpl; [done|].
  intros Hup. apply orb_true_iff in Hup as [Hev|Hrest].
  - destruct ev as [a' [v|e]| | |]; try discriminate. simpl. by rewrite Hev.
  - rewrite (IH Hrest). by rewrite orb_true_r.
Qed.

Section Entities.
Context {K : Type} `{Connection K}.

(** With one listener per callback, a listener is called only on account of
    addresses of its context. *)
Lemma run_notify_origin (hp : HeatPump) (ls : list Listener) (w : World K)
    (l : Listener) o seen :
  l ∈ ls -> NoDup (map update_callback ls) ->
  EvNotify o (update_callback l) seen ∈ log (_async_update_data hp ls w) ->
  ∃ a, o = Some a ∧ a ∈ context l.
Proof.
  intros Hl Hcbs Hin. pose proof (run_cycle hp ls w) as Hcyc.
  destruct (cycle_mentions _ _ _ _ _ _ _ Hcyc _ Hin) as (a & Ha & _).
  simpl in Ha. subst o. exists a. split; [done|].
  assert (Hfor : is_notify_for a (update_callback l)
                   (EvNotify (Some a) (update_callback l) seen) = true).
  { simpl. by rewrite !bool_decide_eq_true_2. }
  pose proof (notifications_for_positive _ _ _ _ Hin Hfor) as Hpos.
  rewrite (cycle_notifications _ _ _ _ _ _ _ Hcyc (collect_callbacks_NoDup ls)) in Hpos.
  destruct (resolvedb _ a); [|lia].
  rewrite collect_callbacks_at, (occurrences_callbacks_for l a ls Hcbs Hl) in Hpos.
  destruct (decide (a ∈ context l)) as [|Hnin]; [done|].
  rewrite (filter_eq_absent a _ Hnin) in Hpos. simpl in Hpos. lia.
Qed.

(** A listener is called on account of each address of its context that the
    cycle resolved. *)
Lemma run_notify_exists (hp : HeatPump) (ls : list Listener) (w : World K)
    (l : Listener) (a : Z) :
  l ∈ ls -> a ∈ context l ->
  resolvedb (log (_async_update_data hp ls w)) a = true ->
  ∃ seen, EvNotify (Some a) (update_callback l) seen ∈ log (_async_update_data hp ls w).
Proof.
  intros Hl Ha Hres. pose proof (run_cycle hp ls w) as Hcyc.
  apply notifications_for_witness.
  rewrite (cycle_notifications _ _ _ _ _ _ _ Hcyc (collect_callbacks_NoDup ls)), Hres.
  rewrite collect_callbacks_at. by apply occurrences_callbacks_for_positive.
Qed.

(** X10: after a cycle that updated an entity's address, the entity holds the
    very coil object that the cache holds for that address (so a later
    [coil.value = ...] on the entity's coil is seen through the cache). *)
Theorem entity_adopts_cached_coil (hp : HeatPump) (ls : list Listener)
    (w : World K) (cb : nat) (e : CoilEntity) :
  entity_listener cb e ∈ ls ->
  NoDup (map update_callback ls) ->
  updatedb (log (_async_update_data hp ls w)) (address (_coil e)) = true ->
  data (cache (final (_async_update_data hp ls w))) !! address (_coil e)
  = Some (_coil (deliver cb (log (_async_update_data hp ls w)) e))
  ∧ address (_coil (deliver cb (log (_async_update_data hp ls w)) e))
    = address (_coil e).
Proof.
  intros Hl Hcbs Hup. pose proof (run_cycle hp ls w) as Hcyc.
  set (run := _async_update_data hp ls w) in *. set (a := address (_coil e)) in *.
  destruct (cycle_data _ _ _ _ _ _ _ Hcyc a) as [Hdata _]. rewrite Hup in Hdata.
  destruct (cycle_updated_cached _ _ _ _ _ _ _ a Hcyc Hup) as [c Hc].
  rewrite Hc in Hdata. symmetry in Hdata.
  pose proof (find_coil_address _ _ _ Hdata) as Haddr.
  assert (Hcoil : _coil (deliver cb (log run) e) = c).
  { apply deliver_called; [exact Haddr| |].
    - intros o seen Hin.
      destruct (run_notify_origin hp ls w (entity_listener cb e) o seen Hl Hcbs Hin)
        as (a' & -> & Ha').
      simpl in Ha'. apply list_elem_of_singleton in Ha' as ->.
      fold a. rewrite (cycle_seen _ _ _ _ _ _ _ Hcyc (collect_callbacks_NoDup ls)
                         a cb seen Hin).
      fold run. by rewrite Hup.
    - destruct (run_notify_exists hp ls w (entity_listener cb e) a Hl) as [seen Hin].
      + simpl. left.
      + by apply updatedb_resolved.
      + by exists (Some a), seen. }
  rewrite Hcoil. by split.
Qed.

(** X11: an entity whose address the cycle found neither a coil nor a cache
    entry for is still called, but each call leaves it as it is and writes no
    state. *)
Theorem uncached_address_leaves_entity (hp : HeatPump) (ls : list Listener)
    (w : World K) (cb : nat) (e : CoilEntity) :
  entity_listener cb e ∈ ls ->
  NoDup (map update_callback ls) ->
  data (cache w) !! address (_coil e) = None ->
  updatedb (log (_async_update_data hp ls w)) (address (_coil e)) = false ->
  deliver cb (log (_async_update_data hp ls w)) e = e
  ∧ (∀ o seen, EvNotify o cb seen ∈ log (_async_update_data hp ls w) ->
               handler_effects e seen = [])
  ∧ (resolvedb (log (_async_update_data hp ls w)) (address (_coil e)) = true ->
     ∃ seen, EvNotify (Some (address (_coil e))) cb seen
             ∈ log (_async_update_data hp ls w)).
Proof.
  intros Hl Hcbs Hnone Hup. pose proof (run_cycle hp ls w) as Hcyc.
  assert (Hseen : ∀ o seen, EvNotify o cb seen ∈ log (_async_update_data hp ls w) ->
                            data seen !! address (_coil e) = None).
  { intros o seen Hin.
    destruct (run_notify_origin hp ls w (entity_listener cb e) o seen Hl Hcbs Hin)
      as (a' & -> & Ha').
    simpl in Ha'. apply list_elem_of_singleton in Ha' as ->.
    rewrite (cycle_seen _ _ _ _ _ _ _ Hcyc (collect_callbacks_NoDup ls) _ cb seen Hin).
    by rewrite Hup. }
  split; [by apply deliver_uncached|]. split.
  - intros o seen Hin. unfold handler_effects. by rewrite (Hseen o seen Hin).
  - intros Hres.
    apply (run_notify_exists hp ls w (entity_listener cb e) _ Hl); [left|done].
Qed.

(** X12: after a cycle, an entity whose address the cycle updated is available
    exactly when the coordinator's last update counts as successful, and an
    entity whose address was neither updated nor cached before is not
    available. *)
Theorem availability_after_cycle (hp : HeatPump) (ls : list Listener)
    (w : World K) (e : CoilEntity) (last_update_success : bool) :
  (updatedb (log (_async_update_data hp ls w)) (address (_coil e)) = true ->
   available last_update_success (cache (final (_async_update_data hp ls w))) e
   = last_update_success)
  ∧ (updatedb (log (_async_update_data hp ls w)) (address (_coil e)) = false ->
     data (cache w) !! address (_coil e) = None ->
     available last_update_success (cache (final (_async_update_data hp ls w))) e
     = false).
Proof.
  pose proof (run_cycle hp ls w) as Hcyc. unfold available. split.
  - intros Hup.
    pose proof (cycle_updated_cached _ _ _ _ _ _ _ _ Hcyc Hup) as Hsome.
    rewrite bool_decide_eq_true_2 by done. by rewrite andb_true_r.
  - intros Hup Hnone.
    destruct (cycle_data _ _ _ _ _ _ _ Hcyc (address (_coil e))) as [Hdata _].
    rewrite Hup, Hnone in Hdata. rewrite Hdata.
    rewrite bool_decide_eq_false_2; [by rewrite andb_false_r|].
    by intros [? ?].
Qed.
End Entities.

(** X10 on the entity of coil 10 and a cycle that reads 5 for it. *)
Lemma entity_adopts_cached_coil_witness :
  updatedb (log (_async_update_data pump_10 [entity_listener 1 entity10]
                   (world0 [ReadOk (VInt 5)] []))) (address (_coil entity10)) = true
  ∧ data (cache (final (_async_update_data pump_10 [entity_listener 1 entity10]
                          (world0 [ReadOk (VInt 5)] [])))) !! address (_coil entity10)
    = Some (_coil (deliver 1 (log (_async_update_data pump_10
                                     [entity_listener 1 entity10]
                                     (world0 [ReadOk (VInt 5)] []))) entity10)).
Proof.
  assert (Hup : updatedb (log (_async_update_data pump_10 [entity_listener 1 entity10]
                                 (world0 [ReadOk (VInt 5)] [])))
                  (address (_coil entity10)) = true) by (vm_compute; reflexivity).
  split; [exact Hup|].
  apply (entity_adopts_cached_coil pump_10 [entity_listener 1 entity10]
           (world0 [ReadOk (VInt 5)] []) 1 entity10); [left| |exact Hup].
  apply (bool_decide_unpack _). vm_compute. exact I.
Defined.

(** X11 on an entity of coil 20 and a heat pump that has coil 10 only. *)
Lemma uncached_address_leaves_entity_witness :
  deliver 3 (log (_async_update_data pump_10 [entity_listener 3 {| _coil := coil20 |}]
                    (world0 [] [])))
    {| _coil := coil20 |}
  = {| _coil := coil20 |}
  ∧ ∃ seen, EvNotify (Some 20) 3 seen
            ∈ log (_async_update_data pump_10
                     [entity_listener 3 {| _coil := coil20 |}] (world0 [] [])).
Proof.
  destruct (uncached_address_leaves_entity pump_10
              [entity_listener 3 {| _coil := coil20 |}] (world0 [] []) 3
              {| _coil := coil20 |}) as (Hsame & _ & Hcalled).
  - left.
  - apply (bool_decide_unpack _). vm_compute. exact I.
  - vm_compute. reflexivity.
  - vm_compute. reflexivity.
  - split; [exact Hsame|]. apply Hcalled. vm_compute. reflexivity.
Defined.

(** X12 on the entity of coil 10 after a cycle that reads 5 for it. *)
Lemma availability_after_cycle_witness :
  available true
    (cache (final (_async_update_data pump_10 [entity_listener 1 entity10]
                     (world0 [ReadOk (VInt 5)] [])))) entity10 = true
  ∧ available true
      (cache (final (_async_update_data pump_10
                       [entity_listener 3 {| _coil := coil20 |}] (world0 [] []))))
      {| _coil := coil20 |} = false.
Proof.
  split.
  - apply (proj1 (availability_after_cycle pump_10 [entity_listener 1 entity10]
                    (world0 [ReadOk (VInt 5)] []) entity10 true)).
    vm_compute. reflexivity.
  - apply (proj2 (availability_after_cycle pump_10
                    [entity_listener 3 {| _coil := coil20 |}] (world0 [] [])
                    {| _coil := coil20 |} true)); vm_compute; reflexivity.
Defined.

(** ** Zero values, and identifiers *)

Section Zero.
Context {K : Type} `{Connection K} `{CoilSetter}.

(** X13: a value of zero reaches entities as unknown.  A callback called
    after the read of its address answered a falsy value (0, 0.0, the empty
    string) gets that value from [get_coil_value] and [None] from
    [get_coil_float]; and so does a reader after an accepted write into a
    cache that is not empty, when the value the coil stored for the written one
    is falsy. *)
Theorem falsy_value_reads_as_none (parse : string -> option spec_float)
    (hp : HeatPump) (ls : list Listener) (w : World K) (v : Val) :
  truthy v = false ->
  (∀ a cb seen coil,
     EvNotify (Some a) cb seen ∈ log (_async_update_data hp ls w) ->
     EvRead a (ReadOk v) ∈ log (_async_update_data hp ls w) ->
     address coil = a ->
     get_coil_value seen coil = Some v ∧ get_coil_float parse seen coil = inr None)
  ∧ (∀ c v0 k', coil_setter c v0 = inr v ->
                write_response (connection w) c (Some v) = (WriteOk, k') ->
                data (cache w) ≠ ∅ ->
                get_coil_value (cache (final (async_write_coil ls c v0 w))) c = Some v
                ∧ get_coil_float parse (cache (final (async_write_coil ls c v0 w))) c
                  = inr None).
Proof.
  intros Hfalsy. split.
  - intros a cb seen coil Hcall Hread Haddr.
    destruct (cycle_fresh _ _ _ _ _ _ _ (run_cycle hp ls w)
                (collect_callbacks_NoDup ls) a cb seen v Hcall Hread)
      as (c & _ & Hdata & Hval).
    assert (Hget : get_coil_value seen coil = Some v).
    { unfold get_coil_value. by rewrite Haddr, Hdata. }
    split; [exact Hget|]. unfold get_coil_float. by rewrite Hget, Hfalsy.
  - intros c v0 k' Hset Hresp Hfull. rewrite async_write_coil_run, Hset, Hresp.
    rewrite bool_decide_eq_false_2 by done. unfold final. cbn [fst snd].
    assert (Hget : get_coil_value
                     (cache (Build_World
                               (set_data (address c) c (set_value c v (cache w))) k'))
                     c = Some v).
    { unfold get_coil_value, coil_value. simpl. by rewrite !lookup_insert_eq. }
    split; [exact Hget|]. unfold get_coil_float. by rewrite Hget, Hfalsy.
Qed.
End Zero.

(** X13 with a write of 0 to coil 10 on a cache that holds it with 5. *)
Lemma falsy_value_reads_as_none_witness :
  truthy (VInt 0) = false
  ∧ get_coil_float (fun _ => None)
      (cache (final (async_write_coil [L1] coil10 (VInt 0)
                       (Build_World cache_10_5 (write_only WriteOk))))) coil10
    = inr None.
Proof.
  split; [reflexivity|].
  destruct (falsy_value_reads_as_none (fun _ => None) pump_10 [L1]
              (Build_World cache_10_5 (write_only WriteOk)) (VInt 0) eq_refl)
    as [_ Hwrite].
  apply (Hwrite coil10 (VInt 0) idle); [reflexivity|vm_compute; reflexivity|].
  intros Heq. apply (f_equal (fun m : gmap Z Coil => m !! 10)) in Heq.
  vm_compute in Heq. discriminate.
Defined.

(** X14: the coordinator's unique id is the config entry's unique id when
    that is set and not empty, and the entry id when it is [None] or empty, so
    it is not empty when the entry id is not; and under one coordinator,
    entities of coils with different addresses get different unique ids. *)
Theorem entity_unique_ids_distinct (entry : ConfigEntry) :
  (∀ s, entry_unique_id entry = Some s -> s ≠ EmptyString -> unique_id entry = s)
  ∧ (entry_id entry ≠ EmptyString -> unique_id entry ≠ EmptyString)
  ∧ (entry_unique_id entry = None ∨ entry_unique_id entry = Some EmptyString ->
     unique_id entry = entry_id entry)
  ∧ (∀ c1 c2, entity_unique_id entry c1 = entity_unique_id entry c2 ->
              address c1 = address c2).
Proof.
  unfold unique_id. repeat split.
  - intros s -> Hs. apply String.eqb_neq in Hs. by rewrite Hs.
  - intros Hid. destruct (entry_unique_id entry) as [s|]; [|done].
    destruct (String.eqb s EmptyString) eqn:Heq; [done|].
    by apply String.eqb_neq in Heq.
  - by intros [-> | ->].
  - intros c1 c2 Heq. unfold entity_unique_id in Heq.
    apply (inj (String.app _)) in Heq. apply (inj (String.app _)) in Heq.
    by apply (inj pretty) in Heq.
Qed.

(** X14 on an entry without a unique id and on one with the unique id
    ["pump"]. *)
Lemma entity_unique_ids_distinct_witness :
  unique_id {| entry_unique_id := None; entry_id := "abc" |} ≠ EmptyString
  ∧ unique_id {| entry_unique_id := Some "pump"%string; entry_id := "abc" |}
    = "pump"%string
  ∧ entity_unique_id {| entry_unique_id := None; entry_id := "abc" |} coil10
    = "abc-10"%string.
Proof.
  split; [|split].
  - apply (proj1 (proj2 (entity_unique_ids_distinct
                           {| entry_unique_id := None; entry_id := "abc" |}))).
    discriminate.
  - apply (proj1 (entity_unique_ids_distinct
                    {| entry_unique_id := Some "pump"%string; entry_id := "abc" |})
             "pump"%string eq_refl).
    discriminate.
  - vm_compute. reflexivity.
Defined.

(** ** What the cycle raises, and the values it leaves *)

Section Raises.
Context {K : Type} `{Connection K} `{CoilSetter}.

Lemma fetch_address_raises (hp : HeatPump) (a : Z) (res : gmap Z Coil)
    (w : World K) e w' evs :
  fetch_address hp a res w = (Raise e, w', evs) -> is_fatal e = true.
Proof.
  unfold fetch_address, try_except.
  destruct ((coil <- get_coil_by_address hp a;; r <- read_coil coil;;
             modify_cache (set_data (address coil) r);;;
             ret (<[address coil:=r]> res))%coord w) as [[[res1|e1] w1] evs1];
    [discriminate|].
  destruct e1; unfold raise, bind, emit, ret; simpl; intros Heq;
    inversion Heq; subst; reflexivity.
Qed.

Lemma update_loop_raises (hp : HeatPump) (items : list (Z * list nat))
    (res : gmap Z Coil) (w : World K) e w' evs :
  update_loop hp items res w = (Raise e, w', evs) -> is_fatal e = true.
Proof.
  revert res w w' evs. induction items as [|item rest IH]; intros res w w' evs Hrun.
  - discriminate.
  - simpl in Hrun. unfold bind at 1 in Hrun.
    destruct (update_address hp item res w) as [[[res1|e1] w1] evs1] eqn:Hturn.
    + destruct (update_loop hp rest res1 w1) as [[r2 w2] evs2] eqn:Hrest.
      inversion Hrun; subst. by eapply IH.
    + inversion Hrun; subst. unfold update_address, bind in Hturn.
      destruct (fetch_address hp (fst item) res w) as [[[res2|e2] w2] evs2] eqn:Hfetch.
      * rewrite for_each_calls in Hturn. discriminate.
      * inversion Hturn; subst. by eapply fetch_address_raises.
Qed.

(** X15: a cycle never lets a [CoilReadException], a [RetryError] or a
    [CoilNotFoundException] out: what it raises is an [UpdateFailed] or an
    error of the connection that the cycle does not name. *)
Theorem cycle_raises_update_failed_or_unnamed (hp : HeatPump) (ls : list Listener)
    (w : World K) (e : exn) :
  outcome (_async_update_data hp ls w) = Raise e ->
  is_fatal e = true
  ∧ e ≠ CoilReadException ∧ e ≠ RetryError ∧ e ≠ CoilNotFoundException.
Proof.
  unfold _async_update_data, outcome.
  destruct (update_loop hp (collect_callbacks ls) ∅ w) as [[r w'] evs] eqn:Hrun.
  simpl. intros ->. apply update_loop_raises in Hrun.
  split; [exact Hrun|]. by destruct e.
Qed.

(** X16: a write whose value the coil refuses raises the setter's error; the
    connection is not asked and nothing changes.  A write that the connection
    refuses raises the connection's error after one attempt, reads nothing and
    calls no callback; the cache dict keeps its entries, but the coil object
    passed in keeps the value it stored for the one that was to be written, and
    where that object is the cached one the cache read returns this value. *)
Theorem failed_write_effects (ls : list Listener) (c : Coil) (v : Val) (w : World K) :
  (∀ e, coil_setter c v = inl e -> async_write_coil ls c v w = (Raise e, w, []))
  ∧ (∀ v' e k', coil_setter c v = inr v' ->
       write_response (connection w) c (Some v') = (WriteErr e, k') ->
       async_write_coil ls c v w
       = (Raise e, Build_World (set_value c v' (cache w)) k',
          [EvWrite (address c) (Some v') (WriteErr e)])
       ∧ data (cache (final (async_write_coil ls c v w))) = data (cache w)
       ∧ coil_value (cache (final (async_write_coil ls c v w))) c = Some v'
       ∧ (data (cache w) !! address c = Some c ->
          get_coil_value (cache (final (async_write_coil ls c v w))) c = Some v')).
Proof.
  split; [by intros e Hset; rewrite async_write_coil_run, Hset|].
  intros v' e k' Hset Hresp. rewrite async_write_coil_run, Hset, Hresp.
  unfold final. cbn [fst snd].
  split; [done|]. split; [done|].
  assert (Hval : coil_value (set_value c v' (cache w)) c = Some v').
  { unfold coil_value. simpl. apply lookup_insert_eq. }
  split; [exact Hval|]. intros Hdata. unfold get_coil_value. simpl.
  by rewrite Hdata.
Qed.
End Raises.

(** X15 at a cycle whose reads time out. *)
Lemma cycle_raises_update_failed_or_unnamed_witness :
  outcome (_async_update_data pump_10 [L1] (world0 [] []))
  = Raise (UpdateFailed RetryError)
  ∧ is_fatal (UpdateFailed RetryError) = true.
Proof.
  assert (Hout : outcome (_async_update_data pump_10 [L1] (world0 [] []))
                 = Raise (UpdateFailed RetryError)) by (vm_compute; reflexivity).
  split; [exact Hout|].
  exact (proj1 (cycle_raises_update_failed_or_unnamed pump_10 [L1] (world0 [] []) _ Hout)).
Defined.

(** X16 on the cache that holds coil 10 with value 5: a refused string, and
    a write of 7 that the connection refuses. *)
Lemma failed_write_effects_witness :
  async_write_coil [L1] coil10 (VStr "x") (Build_World cache_10_5 (write_only WriteOk))
  = (Raise (OtherException "AssertionError"),
     Build_World cache_10_5 (write_only WriteOk), [])
  ∧ get_coil_value cache_10_5 coil10 = Some (VInt 5)
  ∧ get_coil_value
      (cache (final (async_write_coil [L1] coil10 (VInt 7)
                       (Build_World cache_10_5
                          (write_only (WriteErr (OtherException "CoilWriteException")))))))
      coil10 = Some (VInt 7).
Proof.
  split.
  - apply (proj1 (failed_write_effects [L1] coil10 (VStr "x")
                    (Build_World cache_10_5 (write_only WriteOk)))).
    reflexivity.
  - split; [vm_compute; reflexivity|].
    assert (Hresp : write_response
                      (connection
                         (Build_World cache_10_5
                            (write_only (WriteErr (OtherException "CoilWriteException")))))
                      coil10 (Some (VInt 7))
                    = (WriteErr (OtherException "CoilWriteException"), idle))
      by (vm_compute; reflexivity).
    apply (proj2 (proj2 (proj2
             (proj2 (failed_write_effects [L1] coil10 (VInt 7) _) (VInt 7) _ idle
                eq_refl Hresp)))).
    vm_compute. reflexivity.
Defined.

(** Where a read of [a] answered [v], the cycle ends with [a]'s coil in the
    cache and [v] as its value, the coils of the heat pump being distinct
    objects. *)
Lemma cycle_final_value hp items res s r s' evs :
  cycle hp items res s r s' evs ->
  NoDup (map fst items) ->
  (∀ c1 c2, c1 ∈ hp -> c2 ∈ hp -> coil_id c1 = coil_id c2 -> c1 = c2) ->
  ∀ a v, EvRead a (ReadOk v) ∈ evs ->
    ∃ c, data s' !! a = Some c ∧ values s' !! coil_id c = Some v.
Proof.
  intros Hcyc Hnd Hids.
  induction Hcyc as [res s|b cbs rest res s c n v r s' evs Hfind Hn Hcyc IH
                 |b cbs rest res s rs r s' evs Hrs Hcyc IH
                 |b cbs rest res s e rs Hrs Hne]; intros a v' Hread.
  - inversion Hread.
  - simpl in Hnd. apply NoDup_cons in Hnd as [Hnotin Hnd].
    rewrite elem_of_app, elem_of_cons, elem_of_app in Hread.
    destruct Hread as [Hread|[Hread|[Hread|Hread]]].
    + apply (proj1 (Forall_forall _ _) (timeouts_failed b n)) in Hread as [? ?].
      discriminate.
    + inversion Hread; subst a v'. exists c. split.
      * rewrite (cycle_unrequested _ _ _ _ _ _ _ b Hcyc Hnotin). simpl.
        apply lookup_insert_eq.
      * rewrite (cycle_values _ _ _ _ _ _ _ (coil_id c) Hcyc).
        { simpl. apply lookup_insert_eq. }
        intros a' c' Hup Hfind' Hid. apply Hnotin.
        assert (c' = c) as ->.
        { apply Hids; [| |done]; apply list_elem_of_In;
            [by apply (find_some _ _ Hfind')|by apply (find_some _ _ Hfind)]. }
        rewrite <- (find_coil_address _ _ _ Hfind).
        rewrite (find_coil_address _ _ _ Hfind').
        by eapply updatedb_requested.
    + apply list_elem_of_fmap in Hread as (? & ? & _). discriminate.
    + by apply IH.
  - simpl in Hnd. apply NoDup_cons in Hnd as [Hnotin Hnd].
    rewrite elem_of_app, elem_of_cons, elem_of_app in Hread.
    destruct Hread as [Hread|[Hread|[Hread|Hread]]].
    + apply (proj1 (Forall_forall _ _) Hrs) in Hread as [? ?]. discriminate.
    + discriminate.
    + apply list_elem_of_fmap in Hread as (? & ? & _). discriminate.
    + by apply IH.
  - apply (proj1 (Forall_forall _ _) Hrs) in Hread as [? ?]. discriminate.
Qed.

Section FinalValues.
Context {K : Type} `{Connection K}.

(** X17: when a cycle ends, by returning or by raising, the cache read for
    every address whose read answered a value in the cycle returns that value
    (the coils of the heat pump being distinct objects); an abort takes back
    nothing, and a value left by a refused write is replaced. *)
Theorem cache_holds_values_read (hp : HeatPump) (ls : list Listener) (w : World K) :
  (∀ c1 c2, c1 ∈ hp -> c2 ∈ hp -> coil_id c1 = coil_id c2 -> c1 = c2) ->
  ∀ a v coil,
    EvRead a (ReadOk v) ∈ log (_async_update_data hp ls w) ->
    address coil = a ->
    get_coil_value (cache (final (_async_update_data hp ls w))) coil = Some v.
Proof.
  intros Hids a v coil Hread Haddr.
  destruct (cycle_final_value _ _ _ _ _ _ _ (run_cycle hp ls w)
              (collect_callbacks_NoDup ls) Hids a v Hread) as (c & Hdata & Hval).
  unfold get_coil_value, coil_value. by rewrite Haddr, Hdata.
Qed.
End FinalValues.

(** X17 on a cycle that reads 5 for 10 and then aborts on 20, started after a
    refused write left 7 in coil 10. *)
Lemma cache_holds_values_read_witness :
  get_coil_value
    (cache (final (_async_update_data pump_three [L1; L3; L4]
                     (Build_World {| data := {[ 10 := coil10 ]};
                                     values := {[ 1%nat := VInt 7 ]} |}
                        {| read_queue := [ReadOk (VInt 5)]; write_queue := [] |}))))
    coil10
  = Some (VInt 5).
Proof.
  apply (cache_holds_values_read pump_three [L1; L3; L4] _) with (a := 10).
  - intros c1 c2 Hc1 Hc2 Hid.
    repeat (apply elem_of_cons in Hc1 as [->|Hc1]);
      repeat (apply elem_of_cons in Hc2 as [->|Hc2]);
      try reflexivity; try discriminate; try inversion Hc1; try inversion Hc2.
  - assert (Hlog : log (_async_update_data pump_three [L1; L3; L4]
                     (Build_World {| data := {[ 10 := coil10 ]};
                                     values := {[ 1%nat := VInt 7 ]} |}
                        {| read_queue := [ReadOk (VInt 5)]; write_queue := [] |}))
                   = EvRead 10 (ReadOk (VInt 5))
                     :: EvNotify (Some 10) 1 cache_10_5 :: timeouts 20 5)
      by (vm_compute; reflexivity).
    rewrite Hlog. left.
  - reflexivity.
Defined.
